(* Shallow embedding of the mixxxlab beat/downbeat/segmentation analyzer
   (src/pkg/analysis/lib/analyzer.cpp, streaming API, and
   src/analyzer/lib/analyzer.cpp, the legacy whole-file analyzer).

   Modelling conventions
   - C [int] values are Z; [size_t] counters are nat.
   - [float] and [double] values are modelled as exact rationals (Q).  The
     constants below are the exact binary values of the C literals.  The
     step size [static_cast<int>(sampleRate * stepSecs)] is the exception:
     there the binary32 product and its rounding are modelled
     ([binary32_round], [f32_int_mul], [float_to_int]).
   - The qm-dsp primitives (DetectionFunction, TempoTrackV2, DownBeat,
     ClusterMeltSegmenter) are external; they are Section variables, i.e.
     every statement quantifies over all of their behaviours.
   - std::sort is external too: its contract (a permutation, sorted for the
     comparator) is stated as [std_sort_contract]; a model of the libstdc++
     algorithm ([Libstdcxx.sort]) is given for concrete runs.
   - Allocation (malloc/calloc/new) is modelled as always succeeding. *)

From Stdlib Require Import String ZArith QArith List Bool Lia.
From Stdlib Require Import Qround Permutation Sorting.Sorted.
From Stdlib Require Orders Mergesort.
Import ListNotations.

Local Open Scope list_scope.
Local Open Scope Z_scope.

(* ------------------------------------------------------------------------ *)
(** * Constants (anonymous namespace of src/pkg/analysis/lib/analyzer.cpp) *)

(** [0.01161f] as a binary32 value. *)
Definition kDefaultStepSecs : Q := 12466143 # 1073741824.
Definition kDefaultMaxBinHz : Z := 50.
Definition kDefaultDBRise : Q := 3.
Definition kDefaultInputTempo : Q := 120.
(** [0.9] as a binary64 value. *)
Definition kDefaultAlpha : Q := 8106479329266893 # 9007199254740992.
Definition kDefaultTightness : Q := 4.
Definition kDefaultBeatsPerBar : Z := 4.

(** qm-dsp enum values used by the defaults. *)
Definition DF_COMPLEXSD : Z := 4.
Definition FEATURE_TYPE_CONSTQ : Z := 1.

Definition kDefaultSegFeatureType : Z := FEATURE_TYPE_CONSTQ.
(** [0.2] and [0.6] as binary64 values. *)
Definition kDefaultSegHopSize : Q := 3602879701896397 # 18014398509481984.
Definition kDefaultSegWindowSize : Q := 5404319552844595 # 9007199254740992.
Definition kDefaultSegNumClusters : Z := 10.
Definition kDefaultSegNumHMMStates : Z := 40.

Definition kDownbeatDecimationFactor : nat := 16.

(** CueType enum of analyzer.h. *)
Definition CUE_TYPE_DOWNBEAT : Z := 1.
Definition CUE_TYPE_PHRASE : Z := 2.
Definition CUE_TYPE_SECTION : Z := 3.
Definition CUE_TYPE_ENERGY : Z := 4.

(* ------------------------------------------------------------------------ *)
(** * Data model (analyzer.h) *)

Record AnalyzerConfig := mkAnalyzerConfig {
  df_type : Z;
  step_secs : Q;
  max_bin_hz : Z;
  db_rise : Q;
  adaptive_whitening : Z;
  input_tempo : Q;
  constrain_tempo : Z;
  alpha : Q;
  tightness : Q;
  beats_per_bar : Z
}.

(** The segmenter configuration lives in its own name space because its
    field [window_size] clashes with the result field of the same name. *)
Module Seg.
Record AnalyzerSegmenterConfig := mkSegConfig {
  feature_type : Z;
  hop_size : Q;
  window_size : Q;
  num_clusters : Z;
  num_hmm_states : Z
}.
End Seg.

Record CuePoint := mkCuePoint {
  time : Q;
  type : Z;
  type_index : Z;
  confidence : Q
}.

Record AnalyzerSegment := mkAnalyzerSegment {
  seg_start : Q;
  seg_end : Q;
  seg_type : Z
}.

(** [AnalyzerResultEx]; every [T* xs; size_t num_xs] pair is one list. *)
Record AnalyzerResultEx := mkResult {
  bpm : Q;
  beats : list Q;
  sample_rate : Z;
  total_frames : Z;
  duration : Q;
  error : option string;
  detection_function : list Q;
  step_size_frames : Z;
  window_size : Z;
  beat_periods : list Z;
  downbeats : list Z;
  beat_spectral_diff : list Q;
  segments : list AnalyzerSegment;
  num_segment_types : Z;
  cue_points : list CuePoint
}.

(** A zero-filled [calloc] result. *)
Definition result_calloc : AnalyzerResultEx :=
  mkResult 0 [] 0 0 0 None [] 0 0 [] [] [] [] 0 [].

Definition analyzer_default_config : AnalyzerConfig :=
  {| df_type := DF_COMPLEXSD;
     step_secs := kDefaultStepSecs;
     max_bin_hz := kDefaultMaxBinHz;
     db_rise := kDefaultDBRise;
     adaptive_whitening := 0;
     input_tempo := kDefaultInputTempo;
     constrain_tempo := 0;
     alpha := kDefaultAlpha;
     tightness := kDefaultTightness;
     beats_per_bar := kDefaultBeatsPerBar |}.

Definition segmenter_default_config : Seg.AnalyzerSegmenterConfig :=
  {| Seg.feature_type := kDefaultSegFeatureType;
     Seg.hop_size := kDefaultSegHopSize;
     Seg.window_size := kDefaultSegWindowSize;
     Seg.num_clusters := kDefaultSegNumClusters;
     Seg.num_hmm_states := kDefaultSegNumHMMStates |}.

Definition getEffectiveConfig (config : option AnalyzerConfig) : AnalyzerConfig :=
  match config with Some c => c | None => analyzer_default_config end.

Definition getEffectiveSegConfig (config : option Seg.AnalyzerSegmenterConfig)
  : Seg.AnalyzerSegmenterConfig :=
  match config with Some c => c | None => segmenter_default_config end.

(* ------------------------------------------------------------------------ *)
(** * 32-bit integers and qm-dsp's MathUtilities *)

(** Two's-complement wrap-around of a 32-bit [int]. *)
Definition wrap32 (z : Z) : Z := (z + 2 ^ 31) mod 2 ^ 32 - 2 ^ 31.

(** qm-dsp [MathUtilities::isPowerOfTwo]:
    [if (x < 1) return false; if (x & (x-1)) return false; return true;] *)
Definition isPowerOfTwo (x : Z) : bool :=
  if x <? 1 then false else Z.land x (x - 1) =? 0.

(** The loop [while (x) { x >>= 1; n <<= 1; }] of [nextPowerOfTwo]; an
    [int] has at most 31 value bits, so 32 rounds of fuel suffice. *)
Fixpoint npot_loop (fuel : nat) (x n : Z) : Z :=
  match fuel with
  | O => n
  | S f => if x =? 0 then n else npot_loop f (Z.shiftr x 1) (wrap32 (Z.shiftl n 1))
  end.

(** qm-dsp [MathUtilities::nextPowerOfTwo]:
    [if (isPowerOfTwo(x)) return x; if (x < 1) return 1; int n = 1; loop; return n;] *)
Definition nextPowerOfTwo (x : Z) : Z :=
  if isPowerOfTwo x then x
  else if x <? 1 then 1
  else npot_loop 32 x 1.

(** The C test [x > 0] on a floating value. *)
Definition Qpos_b (x : Q) : bool := negb (Qle_bool x 0).

(** [static_cast<int>] of a floating value: truncation toward zero. *)
Definition trunc_to_int (q : Q) : Z := Z.quot (Qnum q) (Zpos (Qden q)).

(** * binary32 arithmetic *)

(** [2^e] as a rational. *)
Definition pow2Q (e : Z) : Q :=
  if 0 <=? e then inject_Z (2 ^ e) else 1 # Z.to_pos (2 ^ (- e)).

(** [floor(log2 q)] for [q > 0]: [q = n/d] lies strictly between
    [2^(log2 n - log2 d - 1)] and [2^(log2 n - log2 d + 1)]. *)
Definition Qlog2_floor (q : Q) : Z :=
  let e0 := Z.log2 (Qnum q) - Z.log2 (Zpos (Qden q)) in
  if Qle_bool (pow2Q e0) q then e0 else e0 - 1.

(** Rounding to the nearest integer, ties to even. *)
Definition round_ne (s : Q) : Z :=
  let f := Qfloor s in
  let r := (s - inject_Z f)%Q in
  if Qle_bool (1 # 2) r then
    (if Qeq_bool r (1 # 2) then (if Z.even f then f else f + 1) else f + 1)
  else f.

(** IEEE 754 binary32 rounding to nearest, ties to even, of a positive
    value: a 24-bit significand, whose last place is [2^k] with
    [k = max (floor(log2 q) - 23) (-149)] (subnormals below [2^-126]);
    [None] is an overflow to infinity (a rounded value of [2^128] or more). *)
Definition binary32_round_pos (q : Q) : option Q :=
  let k := Z.max (Qlog2_floor q - 23) (-149) in
  let r := (inject_Z (round_ne (q / pow2Q k)) * pow2Q k)%Q in
  if Qle_bool (pow2Q 128) r then None else Some r.

(** Rounding of any rational; rounding to nearest is symmetric. *)
Definition binary32_round (q : Q) : option Q :=
  if Qle_bool q 0 then
    (if Qle_bool 0 q then Some 0%Q else option_map Qopp (binary32_round_pos (- q)))
  else binary32_round_pos q.

(** [i * x] for an [int] [i] and a [float] [x]: [i] is converted to
    [float] (usual arithmetic conversions), then the product is rounded to
    binary32 (float expressions are evaluated in single precision on
    x86-64 and AArch64, FLT_EVAL_METHOD 0); [None] is an infinite product. *)
Definition f32_int_mul (i : Z) (x : Q) : option Q :=
  match binary32_round (inject_Z i) with
  | Some fi => binary32_round (fi * x)
  | None => None
  end.

(** [static_cast<int>] of a [float]: truncation toward zero.  A value out of
    the range of [int] (or infinite) is undefined behaviour in C++; the value
    here, [INT_MIN], is what x86-64's [cvttss2si] gives for it. *)
Definition float_to_int (f : option Q) : Z :=
  match f with
  | Some q =>
      let t := trunc_to_int q in
      if (- 2 ^ 31 <=? t) && (t <? 2 ^ 31) then t else - 2 ^ 31
  | None => - 2 ^ 31
  end.

(* ------------------------------------------------------------------------ *)
(** * FrameAccumulator: the overlap buffer of [analyzer_process] *)

(** [overlapBuffer[pos] = x] on a vector of the window size.  A write at an
    index past the end leaves the elements of the vector unchanged (it only
    happens when the step is 0, see [acc_push]). *)
Fixpoint set_nth (l : list Q) (i : nat) (x : Q) : list Q :=
  match l, i with
  | [], _ => []
  | _ :: t, O => x :: t
  | y :: t, S j => y :: set_nth t j x
  end.

Record OverlapAcc := mkAcc {
  overlapBuffer : list Q;
  overlapPos : nat
}.

(** [overlapBuffer.resize(windowSize, 0.0)], [overlapPos(0)]. *)
Definition acc_init (windowSize : nat) : OverlapAcc := mkAcc (repeat 0%Q windowSize) 0.

(** One iteration of the sample loop of [analyzer_process] (lines 338-365):
    store the sample, advance, and on a full window emit a copy of the buffer
    and shift it left by [shift] ([std::copy(begin + shift, end, begin)]
    leaves the last [shift] elements in place), or reset when
    [shift >= windowSize]. *)
Definition acc_push (windowSize shift : nat) (a : OverlapAcc) (x : Q)
  : OverlapAcc * option (list Q) :=
  let buf := set_nth (overlapBuffer a) (overlapPos a) x in
  let pos := S (overlapPos a) in
  if (windowSize <=? pos)%nat then
    if (shift <? windowSize)%nat then
      (mkAcc (skipn shift buf ++ skipn (windowSize - shift) buf) (windowSize - shift), Some buf)
    else (mkAcc buf 0, Some buf)
  else (mkAcc buf pos, None).

(** Feed a stream sample by sample, collecting the emitted windows in order. *)
Fixpoint acc_run (windowSize shift : nat) (a : OverlapAcc) (xs : list Q)
  : OverlapAcc * list (list Q) :=
  match xs with
  | [] => (a, [])
  | x :: t =>
      let (a1, w) := acc_push windowSize shift a x in
      let (a2, ws) := acc_run windowSize shift a1 t in
      (a2, match w with Some win => win :: ws | None => ws end)
  end.

(** The stream rebuilt from emitted windows: the first window whole, then the
    last [shift] samples of each later window. *)
Definition reconstruct (windowSize shift : nat) (ws : list (list Q)) : list Q :=
  match ws with
  | [] => []
  | w0 :: rest => w0 ++ List.concat (map (fun w => skipn (windowSize - shift) w) rest)
  end.

(** Down-mix helpers: [convertToDouble] and [downmixToMono]. *)
Definition convertToDouble (samples : list Q) (frames : nat) : list Q :=
  map (fun i => nth i samples 0%Q) (seq 0 frames).

Definition downmixToMono (stereo : list Q) (frames : nat) : list Q :=
  map (fun i => ((nth (2 * i) stereo 0 + nth (2 * i + 1) stereo 0) * (1 # 2))%Q)
      (seq 0 frames).

(* ------------------------------------------------------------------------ *)
(** * The streaming session *)

(** qm-dsp [DFConfig]. *)
Record DFConfig := mkDFConfig {
  DFType : Z;
  stepSize : Z;
  frameLength : Z;
  dbRise : Q;
  adaptiveWhitening : bool;
  whiteningRelaxCoeff : Q;
  whiteningFloor : Q
}.

Definition makeDetectionFunctionConfig (cfg : AnalyzerConfig) (stepSizeFrames windowSize : Z)
  : DFConfig :=
  {| DFType := if 0 <? df_type cfg then df_type cfg else DF_COMPLEXSD;
     stepSize := stepSizeFrames;
     frameLength := windowSize;
     dbRise := if Qpos_b (db_rise cfg) then db_rise cfg else kDefaultDBRise;
     adaptiveWhitening := negb (adaptive_whitening cfg =? 0);
     whiteningRelaxCoeff := -1;
     whiteningFloor := -1 |}.

(** Derived sizes of the [QMAnalyzer] constructor (lines 134-138). *)
Definition effStepSecs (cfg : AnalyzerConfig) : Q :=
  if Qpos_b (step_secs cfg) then step_secs cfg else kDefaultStepSecs.

Definition effMaxBinHz (cfg : AnalyzerConfig) : Z :=
  if 0 <? max_bin_hz cfg then max_bin_hz cfg else kDefaultMaxBinHz.

(** [stepSizeFrames = static_cast<int>(sampleRate * stepSecs)] with [int]
    [sampleRate] and [float] [stepSecs]. *)
Definition ctorStepSizeFrames (sampleRate : Z) (cfg : AnalyzerConfig) : Z :=
  float_to_int (f32_int_mul sampleRate (effStepSecs cfg)).

Definition ctorWindowSize (sampleRate : Z) (cfg : AnalyzerConfig) : Z :=
  nextPowerOfTwo (Z.quot sampleRate (effMaxBinHz cfg)).

(** [analyzer_create]'s guard (line 304). *)
Definition create_guard (sample_rate channels : Z) : bool :=
  (sample_rate <=? 0) || (channels <=? 0) || (2 <? channels).

(** The segmenter parameters and the segmentation returned by qm-dsp. *)
Module SegPrim.
Record ClusterMeltSegmenterParams := mkParams {
  featureType : Z;
  hopSize : Q;
  windowSize : Q;
  nHMMStates : Z;
  nclusters : Z
}.
Record Segment := mkSegment { start : Z; end_ : Z; type : Z }.
Record Segmentation := mkSegmentation { segments : list Segment; nsegtypes : Z }.
End SegPrim.

(** Lines 528-534: the parameters handed to [ClusterMeltSegmenter]. *)
Definition segmenterParams (segCfg : Seg.AnalyzerSegmenterConfig)
  : SegPrim.ClusterMeltSegmenterParams :=
  {| SegPrim.featureType :=
       if 0 <? Seg.feature_type segCfg then Seg.feature_type segCfg else kDefaultSegFeatureType;
     SegPrim.hopSize :=
       if Qpos_b (Seg.hop_size segCfg) then Seg.hop_size segCfg else kDefaultSegHopSize;
     SegPrim.windowSize :=
       if Qpos_b (Seg.window_size segCfg) then Seg.window_size segCfg else kDefaultSegWindowSize;
     SegPrim.nHMMStates :=
       if 0 <? Seg.num_hmm_states segCfg then Seg.num_hmm_states segCfg else kDefaultSegNumHMMStates;
     SegPrim.nclusters :=
       if 0 <? Seg.num_clusters segCfg then Seg.num_clusters segCfg else kDefaultSegNumClusters |}.

(* ------------------------------------------------------------------------ *)
(** * Tempo stage helpers (shared shape of both analyzers) *)

(** [while (nonZeroCount > 0 && detectionResults[nonZeroCount - 1] <= 0.0) --nonZeroCount;] *)
Fixpoint nonZeroCount_loop (dr : list Q) (n : nat) : nat :=
  match n with
  | O => O
  | S m => if Qle_bool (nth m dr 0%Q) 0 then nonZeroCount_loop dr m else n
  end.

Definition nonZeroCount (dr : list Q) : nat := nonZeroCount_loop dr (length dr).

(** [for (size_t i = 2; i < nonZeroCount; ++i) df.push_back(detectionResults[i]);] *)
Definition trimmedDF (dr : list Q) (nz : nat) : list Q :=
  map (fun i => nth i dr 0%Q) (seq 2 (nz - 2)).

(** [framePos = (beats[i] + 2) * stepSizeFrames + stepSizeFrames / 2.0;
     beats[i] = framePos / sampleRate;] *)
Definition beatTime (stepSizeFrames sampleRate : Z) (b : Q) : Q :=
  (((b + 2) * inject_Z stepSizeFrames + inject_Z stepSizeFrames / 2) / inject_Z sampleRate)%Q.

(** [for (i = 1; i < num_beats; ++i) totalInterval += beats[i] - beats[i - 1];] *)
Definition totalInterval (bs : list Q) : Q :=
  fold_left (fun acc i => acc + (nth i bs 0 - nth (i - 1) bs 0))%Q (seq 1 (length bs - 1)) 0%Q.

(** [avgInterval = totalInterval / (num_beats - 1); bpm = 60.0 / avgInterval;] *)
Definition bpmOf (bs : list Q) : Q :=
  (60 / (totalInterval bs / inject_Z (Z.of_nat (length bs - 1))))%Q.

(* ------------------------------------------------------------------------ *)
(** * CueSynthesizer (lines 574-603), before the sort *)

(** [0.8] and [0.7] as binary64 values. *)
Definition kPhraseConfidence : Q := 3602879701896397 # 4503599627370496.
Definition kSectionConfidence : Q := 3152519739159347 # 4503599627370496.

(** [for (size_t i = 0; i < num_downbeats; i += phraseBars)], [phraseBars = 8]. *)
Fixpoint phraseCues_loop (beats_s : list Q) (dbs : list Z) (fuel i : nat) : list CuePoint :=
  match fuel with
  | O => []
  | S f =>
      if (i <? length dbs)%nat then
        let beatIdx := nth i dbs 0 in
        let rest := phraseCues_loop beats_s dbs f (i + 8) in
        if (0 <=? beatIdx) && (Z.to_nat beatIdx <? length beats_s)%nat then
          {| time := nth (Z.to_nat beatIdx) beats_s 0%Q;
             type := CUE_TYPE_PHRASE;
             type_index := Z.of_nat (i / 8);
             confidence := kPhraseConfidence |} :: rest
        else rest
      else []
  end.

Definition phraseCues (beats_s : list Q) (dbs : list Z) : list CuePoint :=
  if (0 <? length dbs)%nat then phraseCues_loop beats_s dbs (length dbs) 0 else [].

Definition sectionCues (segs : list AnalyzerSegment) : list CuePoint :=
  map (fun sg => {| time := seg_start sg;
                    type := CUE_TYPE_SECTION;
                    type_index := seg_type sg;
                    confidence := kSectionConfidence |}) segs.

(** The vector handed to [std::sort]: phrase cues, then section cues. *)
Definition unsortedCues (beats_s : list Q) (dbs : list Z) (segs : list AnalyzerSegment)
  : list CuePoint :=
  phraseCues beats_s dbs ++ sectionCues segs.

(** The comparator [a.time < b.time]. *)
Definition cue_less (a b : CuePoint) : bool := negb (Qle_bool (time b) (time a)).

Definition cue0 : CuePoint := mkCuePoint 0 0 0 0.

(** The C++ standard's contract of [std::sort(first, last, comp)]: the output
    is a permutation of the input, and no later element compares less than
    an earlier one.  Nothing is promised about the order of equal elements. *)
Definition std_sort_contract (input output : list CuePoint) : Prop :=
  Permutation input output /\
  (forall i j, (i < j < length output)%nat ->
     cue_less (nth j output cue0) (nth i output cue0) = false).

(* ------------------------------------------------------------------------ *)
(** * The session: [QMAnalyzer], [analyzer_create], [analyzer_process],
      [analyzer_finalize] *)

(** Lines 558-565: the segments converted from samples to seconds. *)
Definition segmentsInSeconds (sr : Z) (sgm : SegPrim.Segmentation) : list AnalyzerSegment :=
  map (fun sg => {| seg_start := (inject_Z (SegPrim.start sg) / inject_Z sr)%Q;
                    seg_end := (inject_Z (SegPrim.end_ sg) / inject_Z sr)%Q;
                    seg_type := SegPrim.type sg |})
      (SegPrim.segments sgm).

Section Session.

(** qm-dsp [DetectionFunction]: constructed from a [DFConfig]; each
    [processTimeDomain] call returns one value and updates its state. *)
Variable DFState : Type.
Variable DetectionFunction_new : DFConfig -> DFState.
Variable processTimeDomain : DFState -> list Q -> Q * DFState.

(** qm-dsp [TempoTrackV2(sampleRate, stepSize)]:
    [calculateBeatPeriod(df, beatPeriod, inputTempo, constrainTempo)] fills a
    vector of the given size; [calculateBeats(df, beatPeriod, beats, alpha,
    tightness)] returns beat positions in DF units. *)
Variable calculateBeatPeriod : Z -> Z -> list Q -> nat -> Q -> bool -> list Z.
Variable calculateBeats : Z -> Z -> list Q -> list Z -> Q -> Q -> list Q.

(** qm-dsp [DownBeat(sampleRate, decimationFactor, stepSize)] after
    [setBeatsPerBar] and the given [pushAudioBlock] calls:
    [getBufferedAudio] and [findDownBeats] followed by [getBeatSD]. *)
Variable DownBeat_getBufferedAudio : Z -> nat -> Z -> Z -> list (list Q) -> list Q.
Variable DownBeat_findDownBeats :
  Z -> nat -> Z -> Z -> list (list Q) -> list Q -> list Q -> list Z * list Q.

(** qm-dsp [ClusterMeltSegmenter(params)] after [initialise(sampleRate)]:
    [getWindowsize], [getHopsize], and [segment(n)] after the
    [extractFeatures] calls on the given frames. *)
Variable Segmenter_getWindowsize : SegPrim.ClusterMeltSegmenterParams -> Z -> Z.
Variable Segmenter_getHopsize : SegPrim.ClusterMeltSegmenterParams -> Z -> Z.
Variable Segmenter_segment :
  SegPrim.ClusterMeltSegmenterParams -> Z -> list (list Q) -> Z -> SegPrim.Segmentation.

(** [std::sort(cues.begin(), cues.end(), [](a, b) { return a.time < b.time; })]. *)
Variable sort_cues : list CuePoint -> list CuePoint.

Record QMAnalyzer := mkQMAnalyzer {
  sampleRate : Z;
  channels : Z;
  config : AnalyzerConfig;
  stepSizeFrames : Z;
  windowSize : Z;
  detectionFunction : DFState;
  detectionResults : list Q;
  overlap : OverlapAcc;
  totalFramesProcessed : Z;
  audioBuffer : list Q
}.

(** The [QMAnalyzer] constructor (lines 127-144). *)
Definition QMAnalyzer_new (sr ch : Z) (cfg : AnalyzerConfig) : QMAnalyzer :=
  let step := ctorStepSizeFrames sr cfg in
  let win := ctorWindowSize sr cfg in
  {| sampleRate := sr;
     channels := ch;
     config := cfg;
     stepSizeFrames := step;
     windowSize := win;
     detectionFunction := DetectionFunction_new (makeDetectionFunctionConfig cfg step win);
     detectionResults := [];
     overlap := acc_init (Z.to_nat win);
     totalFramesProcessed := 0;
     audioBuffer := [] |}.

(** [analyzer_create]; [None] is the null handle. *)
Definition analyzer_create (sample_rate channels : Z) (config : option AnalyzerConfig)
  : option QMAnalyzer :=
  if create_guard sample_rate channels then None
  else Some (QMAnalyzer_new sample_rate channels (getEffectiveConfig config)).

(** One sample of the loop of [analyzer_process] (lines 338-365). *)
Definition process_sample (a : QMAnalyzer) (x : Q) : QMAnalyzer :=
  let (acc', w) := acc_push (Z.to_nat (windowSize a)) (Z.to_nat (stepSizeFrames a))
                            (overlap a) x in
  let '(st, dr) :=
    match w with
    | Some win =>
        let (df, st') := processTimeDomain (detectionFunction a) win in
        (st', detectionResults a ++ [df])
    | None => (detectionFunction a, detectionResults a)
    end in
  {| sampleRate := sampleRate a;
     channels := channels a;
     config := config a;
     stepSizeFrames := stepSizeFrames a;
     windowSize := windowSize a;
     detectionFunction := st;
     detectionResults := dr;
     overlap := acc';
     totalFramesProcessed := totalFramesProcessed a + 1;
     audioBuffer := audioBuffer a |}.

Definition with_audio (a : QMAnalyzer) (mono : list Q) : QMAnalyzer :=
  {| sampleRate := sampleRate a;
     channels := channels a;
     config := config a;
     stepSizeFrames := stepSizeFrames a;
     windowSize := windowSize a;
     detectionFunction := detectionFunction a;
     detectionResults := detectionResults a;
     overlap := overlap a;
     totalFramesProcessed := totalFramesProcessed a;
     audioBuffer := audioBuffer a ++ mono |}.

(** [analyzer_process] (lines 317-368): down-mix, append the mono samples to
    the audio history, then run them through the overlap buffer.  A null
    analyzer or sample pointer is not modelled; [num_frames == 0] is
    rejected with [-1]. *)
Definition analyzer_process (a : QMAnalyzer) (samples : list Q) (num_frames : nat)
  : Z * QMAnalyzer :=
  if (num_frames =? 0)%nat then (-1, a)
  else
    let mono := if channels a =? 1 then convertToDouble samples num_frames
                else downmixToMono samples num_frames in
    (0, fold_left process_sample mono (with_audio a mono)).

(** [for (size_t i = 0; i + len <= audio.size(); i += hop) f(audio.data() + i)]:
    the frames visited, each as its [len] samples.  The loop runs at most
    [length audio + 1] times when [hop > 0], which is the fuel given; with
    [hop = 0] and a non-empty range the C loop does not terminate, and the
    model stops when the fuel runs out. *)
Fixpoint strideFrames (audio : list Q) (len hop : nat) (fuel i : nat) : list (list Q) :=
  match fuel with
  | O => []
  | S f =>
      if (i + len <=? length audio)%nat
      then firstn len (skipn i audio) :: strideFrames audio len hop f (i + hop)
      else []
  end.

Definition effBeatsPerBar (cfg : AnalyzerConfig) : Z :=
  if 0 <? beats_per_bar cfg then beats_per_bar cfg else kDefaultBeatsPerBar.

(** Downbeat detection (lines 478-522): downbeat indices and beat spectral
    differences, empty when the stage is skipped. *)
Definition downbeatStage (a : QMAnalyzer) (bts : list Q) : list Z * list Q :=
  let beatsPerBar := effBeatsPerBar (config a) in
  if (4 <=? length bts)%nat && negb (length (audioBuffer a) =? 0)%nat then
    let blockSize := Z.to_nat (stepSizeFrames a) in
    let blocks := strideFrames (audioBuffer a) blockSize blockSize
                               (S (length (audioBuffer a))) 0 in
    let decimated := DownBeat_getBufferedAudio (sampleRate a) kDownbeatDecimationFactor
                       (stepSizeFrames a) beatsPerBar blocks in
    if (0 <? length decimated)%nat then
      DownBeat_findDownBeats (sampleRate a) kDownbeatDecimationFactor (stepSizeFrames a)
                             beatsPerBar blocks decimated bts
    else ([], [])
  else ([], []).

(** Segmentation (lines 524-572): the segments in seconds and the number of
    segment types, empty when the stage is skipped.  Note the argument of
    [segmenter.segment(segCfg.num_clusters)]. *)
Definition segmentationStage (a : QMAnalyzer) (seg_config : option Seg.AnalyzerSegmenterConfig)
  : list AnalyzerSegment * Z :=
  match seg_config with
  | None => ([], 0)
  | Some _ =>
      if (length (audioBuffer a) =? 0)%nat then ([], 0)
      else
        let segCfg := getEffectiveSegConfig seg_config in
        let params := segmenterParams segCfg in
        let wsz := Segmenter_getWindowsize params (sampleRate a) in
        let hop := Segmenter_getHopsize params (sampleRate a) in
        let frames := strideFrames (audioBuffer a) (Z.to_nat wsz) (Z.to_nat hop)
                                   (S (length (audioBuffer a))) 0 in
        let sgm := Segmenter_segment params (sampleRate a) frames (Seg.num_clusters segCfg) in
        (segmentsInSeconds (sampleRate a) sgm, SegPrim.nsegtypes sgm)
  end.

(** The result fields set before the [df_length < 4] test (lines 380-384)
    together with the given later fields; fields not given stay as
    [calloc] left them. *)
Definition resultOf (a : QMAnalyzer) (err : option string) (df : list Q) (bp : list Z)
  (bs : list Q) (b : Q) (dbs : list Z) (bsd : list Q) (segs : list AnalyzerSegment)
  (nst : Z) (cues : list CuePoint) : AnalyzerResultEx :=
  {| bpm := b;
     beats := bs;
     sample_rate := sampleRate a;
     total_frames := totalFramesProcessed a;
     duration := (inject_Z (totalFramesProcessed a) / inject_Z (sampleRate a))%Q;
     error := err;
     detection_function := df;
     step_size_frames := stepSizeFrames a;
     window_size := windowSize a;
     beat_periods := bp;
     downbeats := dbs;
     beat_spectral_diff := bsd;
     segments := segs;
     num_segment_types := nst;
     cue_points := cues |}.

Definition effInputTempo (cfg : AnalyzerConfig) : Q :=
  if Qpos_b (input_tempo cfg) then input_tempo cfg else kDefaultInputTempo.
Definition effAlpha (cfg : AnalyzerConfig) : Q :=
  if Qpos_b (alpha cfg) then alpha cfg else kDefaultAlpha.
Definition effTightness (cfg : AnalyzerConfig) : Q :=
  if Qpos_b (tightness cfg) then tightness cfg else kDefaultTightness.

(** [analyzer_finalize] (lines 370-618). *)
Definition analyzer_finalize (a : QMAnalyzer) (seg_config : option Seg.AnalyzerSegmenterConfig)
  : AnalyzerResultEx :=
  let dr := detectionResults a in
  if (length dr <? 4)%nat then
    resultOf a (Some "Not enough audio data for beat detection"%string) [] [] [] 0 [] [] [] 0 []
  else
  let nz := nonZeroCount dr in
  if (nz <=? 2)%nat then
    resultOf a (Some "No valid detection results"%string) dr [] [] 0 [] [] [] 0 []
  else
  let df := trimmedDF dr nz in
  let sr := sampleRate a in
  let step := stepSizeFrames a in
  let bp := calculateBeatPeriod sr step df (length df / 128 + 1)
              (effInputTempo (config a)) (negb (constrain_tempo (config a) =? 0)) in
  let bts := calculateBeats sr step df bp (effAlpha (config a)) (effTightness (config a)) in
  match bts with
  | [] => resultOf a (Some "No beats detected"%string) dr bp [] 0 [] [] [] 0 []
  | _ :: _ =>
      let beats_s := map (beatTime step sr) bts in
      let b := if (2 <=? length bts)%nat then bpmOf beats_s else 0%Q in
      let '(dbs, bsd) := downbeatStage a bts in
      let '(segs, nst) := segmentationStage a seg_config in
      let cues := sort_cues (unsortedCues beats_s dbs segs) in
      resultOf a None dr bp beats_s b dbs bsd segs nst cues
  end.

End Session.

(* ------------------------------------------------------------------------ *)
(** * The legacy whole-file analyzer (src/analyzer/lib/analyzer.cpp) *)

Module Legacy.

(** The basic [AnalyzerResult] of src/analyzer/lib/analyzer.h. *)
Record AnalyzerResult := mkLegacyResult {
  bpm : Q;
  beats : list Q;
  sample_rate : Z;
  total_frames : Z;
  duration : Q;
  error : option string
}.

(** [kStepSecs = 0.01161f] and [kMaximumBinSizeHz = 50]. *)
Definition kStepSecs : Q := 12466143 # 1073741824.
Definition kMaximumBinSizeHz : Z := 50.

(** Default arguments of qm-dsp's [TempoTrackV2::calculateBeatPeriod]
    ([inputtempo = 120.0], [constraintempo = false]) and
    [TempoTrackV2::calculateBeats] ([alpha = 0.9], [tightness = 4.]). *)
Definition defaultInputTempo : Q := 120.
Definition defaultConstrainTempo : bool := false.
Definition defaultAlpha : Q := 8106479329266893 # 9007199254740992.
Definition defaultTightness : Q := 4.

(** [int stepSizeFrames = static_cast<int>(sfinfo.samplerate * kStepSecs);] *)
Definition stepSizeFramesOf (samplerate : Z) : Z :=
  float_to_int (f32_int_mul samplerate kStepSecs).

Section Analyze.

Variable calculateBeatPeriod : Z -> Z -> list Q -> nat -> Q -> bool -> list Z.
Variable calculateBeats : Z -> Z -> list Q -> list Z -> Q -> Q -> list Q.

Definition withError (r : AnalyzerResult) (e : string) : AnalyzerResult :=
  mkLegacyResult (bpm r) (beats r) (sample_rate r) (total_frames r) (duration r) (Some e).

(** [analyzer_analyze_file] from line 154 on, once the file has been read
    into the detection-function sequence [detectionResults]; [samplerate]
    and [frames] are the file's [sfinfo] fields. *)
Definition analyze_from_df (samplerate frames : Z) (detectionResults : list Q) : AnalyzerResult :=
  let r0 := mkLegacyResult 0 [] samplerate frames
              (inject_Z frames / inject_Z samplerate)%Q None in
  let stepSizeFrames := stepSizeFramesOf samplerate in
  if (length detectionResults <? 4)%nat then
    withError r0 "Not enough audio data for beat detection"
  else
  let nz := nonZeroCount detectionResults in
  if (nz <=? 2)%nat then withError r0 "No valid detection results"
  else
  let df := trimmedDF detectionResults nz in
  let beatPeriod := calculateBeatPeriod samplerate stepSizeFrames df (length df / 128 + 1)
                      defaultInputTempo defaultConstrainTempo in
  let bts := calculateBeats samplerate stepSizeFrames df beatPeriod defaultAlpha defaultTightness in
  match bts with
  | [] => withError r0 "No beats detected"
  | _ :: _ =>
      let beats_s := map (beatTime stepSizeFrames samplerate) bts in
      let b := if (2 <=? length bts)%nat then bpmOf beats_s else 0%Q in
      mkLegacyResult b beats_s samplerate frames (duration r0) None
  end.

End Analyze.

End Legacy.

(* ------------------------------------------------------------------------ *)
(** * libsndfile, as read by both whole-file analyzers *)

Module SF.
(** The [SF_INFO] fields the analyzers read. *)
Record SF_INFO := mkSFInfo { frames : Z; samplerate : Z; channels : Z }.
(** An open [SNDFILE]: its header and its interleaved samples as floats. *)
Record SNDFILE := mkSndfile { sfinfo : SF_INFO; data : list Q }.
End SF.

(** The outcome of [sf_open(filepath, SFM_READ, &sfinfo)]: an open file, or a
    null handle together with the text [sf_strerror(nullptr)] returns. *)
Definition sf_open_result : Type := (SF.SNDFILE + string)%type.

Definition chunkSize : nat := 4096.

(** [sf_readf_float(sndfile, readBuffer.data(), chunkSize)] once [pos] frames
    have been read: the number of frames read and the samples stored at the
    start of [readBuffer]. *)
Definition sf_readf_float (f : SF.SNDFILE) (pos : nat) : nat * list Q :=
  let ch := Z.to_nat (SF.channels (SF.sfinfo f)) in
  let n := Nat.min chunkSize (Z.to_nat (SF.frames (SF.sfinfo f)) - pos) in
  (n, firstn (n * ch) (skipn (pos * ch) (SF.data f))).

(* ------------------------------------------------------------------------ *)
(** * The whole-file API of src/pkg/analysis/lib/analyzer.cpp
      ([analyzer_analyze_file], [analyzer_analyze_file_config],
      [analyzer_analyze_file_ex], [analyzer_get_df_count]) *)

(** The result fields [analyzer_analyze_file_ex] stores from [sfinfo]
    (lines 239-241, copied again at lines 276-278). *)
Definition withFileInfo (r : AnalyzerResultEx) (info : SF.SF_INFO) : AnalyzerResultEx :=
  {| bpm := bpm r;
     beats := beats r;
     sample_rate := SF.samplerate info;
     total_frames := SF.frames info;
     duration := (inject_Z (SF.frames info) / inject_Z (SF.samplerate info))%Q;
     error := error r;
     detection_function := detection_function r;
     step_size_frames := step_size_frames r;
     window_size := window_size r;
     beat_periods := beat_periods r;
     downbeats := downbeats r;
     beat_spectral_diff := beat_spectral_diff r;
     segments := segments r;
     num_segment_types := num_segment_types r;
     cue_points := cue_points r |}.

(** [result->error = strdup_safe(e)]. *)
Definition withErrorEx (r : AnalyzerResultEx) (e : string) : AnalyzerResultEx :=
  {| bpm := bpm r;
     beats := beats r;
     sample_rate := sample_rate r;
     total_frames := total_frames r;
     duration := duration r;
     error := Some e;
     detection_function := detection_function r;
     step_size_frames := step_size_frames r;
     window_size := window_size r;
     beat_periods := beat_periods r;
     downbeats := downbeats r;
     beat_spectral_diff := beat_spectral_diff r;
     segments := segments r;
     num_segment_types := num_segment_types r;
     cue_points := cue_points r |}.

(** [analyzer_analyze_file_config]'s conversion of the extended result into
    the basic [AnalyzerResult] (lines 190-201). *)
Definition toSimpleResult (ex : AnalyzerResultEx) : Legacy.AnalyzerResult :=
  Legacy.mkLegacyResult (bpm ex) (beats ex) (sample_rate ex) (total_frames ex)
                        (duration ex) (error ex).

Section FileApi.

Variable DFState : Type.
Variable DetectionFunction_new : DFConfig -> DFState.
Variable processTimeDomain : DFState -> list Q -> Q * DFState.
Variable calculateBeatPeriod : Z -> Z -> list Q -> nat -> Q -> bool -> list Z.
Variable calculateBeats : Z -> Z -> list Q -> list Z -> Q -> Q -> list Q.
Variable DownBeat_getBufferedAudio : Z -> nat -> Z -> Z -> list (list Q) -> list Q.
Variable DownBeat_findDownBeats :
  Z -> nat -> Z -> Z -> list (list Q) -> list Q -> list Q -> list Z * list Q.
Variable Segmenter_getWindowsize : SegPrim.ClusterMeltSegmenterParams -> Z -> Z.
Variable Segmenter_getHopsize : SegPrim.ClusterMeltSegmenterParams -> Z -> Z.
Variable Segmenter_segment :
  SegPrim.ClusterMeltSegmenterParams -> Z -> list (list Q) -> Z -> SegPrim.Segmentation.
Variable sort_cues : list CuePoint -> list CuePoint.

(** [analyzer_get_df_count] (lines 624-627); [None] is the null handle. *)
Definition analyzer_get_df_count (analyzer : option (QMAnalyzer DFState)) : nat :=
  match analyzer with
  | None => 0
  | Some a => length (detectionResults DFState a)
  end.

(** [processTimeDomain] called on a sequence of windows, threading the
    detection function's state: the values returned, in order, and the
    final state. *)
Fixpoint df_run (st : DFState) (ws : list (list Q)) : list Q * DFState :=
  match ws with
  | [] => ([], st)
  | w :: rest =>
      let (v, st1) := processTimeDomain st w in
      let (vs, st2) := df_run st1 rest in
      (v :: vs, st2)
  end.

(** The read loop of [analyzer_analyze_file_ex] (lines 244-260): [None] when
    [analyzer_process] reports an error.  Every round but the last reads at
    least one frame, so [frames + 1] rounds of fuel suffice. *)
Fixpoint process_chunks (fuel : nat) (f : SF.SNDFILE) (pos : nat) (a : QMAnalyzer DFState)
  : option (QMAnalyzer DFState) :=
  match fuel with
  | O => Some a
  | S fuel' =>
      let (framesRead, buf) := sf_readf_float f pos in
      if (framesRead =? 0)%nat then Some a
      else
        let (err, a') := analyzer_process DFState processTimeDomain a buf framesRead in
        if negb (err =? 0) then None
        else process_chunks fuel' f (pos + framesRead) a'
  end.

(** [analyzer_analyze_file_ex] (lines 210-283) on the outcome of [sf_open].
    [analyzer_finalize] only returns null for a null analyzer, so the
    "Failed to finalize analysis" branch is not reachable. *)
Definition analyzer_analyze_file_ex (file : sf_open_result) (config : option AnalyzerConfig)
  (seg_config : option Seg.AnalyzerSegmenterConfig) : AnalyzerResultEx :=
  let cfg := getEffectiveConfig config in
  match file with
  | inr msg => withErrorEx result_calloc msg
  | inl f =>
      let info := SF.sfinfo f in
      match analyzer_create DFState DetectionFunction_new (SF.samplerate info)
              (SF.channels info) (Some cfg) with
      | None => withErrorEx result_calloc "Failed to create analyzer"
      | Some a =>
          let result := withFileInfo result_calloc info in
          match process_chunks (S (Z.to_nat (SF.frames info))) f 0 a with
          | None => withErrorEx result "Error processing audio"
          | Some a' =>
              withFileInfo
                (analyzer_finalize DFState calculateBeatPeriod calculateBeats
                   DownBeat_getBufferedAudio DownBeat_findDownBeats Segmenter_getWindowsize
                   Segmenter_getHopsize Segmenter_segment sort_cues a' seg_config)
                info
          end
      end
  end.

(** [analyzer_analyze_file_config] (lines 178-208). *)
Definition analyzer_analyze_file_config (file : sf_open_result) (config : option AnalyzerConfig)
  : Legacy.AnalyzerResult :=
  toSimpleResult (analyzer_analyze_file_ex file config None).

(** [analyzer_analyze_file] (lines 174-176). *)
Definition analyzer_analyze_file (file : sf_open_result) : Legacy.AnalyzerResult :=
  analyzer_analyze_file_config file None.

End FileApi.

(* ------------------------------------------------------------------------ *)
(** * The legacy [analyzer_analyze_file] from the opened file on
      (src/analyzer/lib/analyzer.cpp, lines 65-154) *)

Module LegacyFile.
Section AnalyzeFile.

Variable DFState : Type.
Variable DetectionFunction_new : DFConfig -> DFState.
Variable processTimeDomain : DFState -> list Q -> Q * DFState.
Variable calculateBeatPeriod : Z -> Z -> list Q -> nat -> Q -> bool -> list Z.
Variable calculateBeats : Z -> Z -> list Q -> list Z -> Q -> Q -> list Q.

(** The legacy [makeDetectionFunctionConfig(stepSizeFrames, windowSize)]. *)
Definition makeDetectionFunctionConfig (stepSizeFrames windowSize : Z) : DFConfig :=
  {| DFType := DF_COMPLEXSD;
     stepSize := stepSizeFrames;
     frameLength := windowSize;
     dbRise := 3;
     adaptiveWhitening := false;
     whiteningRelaxCoeff := -1;
     whiteningFloor := -1 |}.

(** The locals the read loop updates: [overlapBuffer] and [overlapPos],
    [detectionFunction] and [detectionResults] ([totalFramesProcessed] is
    counted but never read). *)
Record LoopState := mkLoopState {
  overlap : OverlapAcc;
  detectionFunction : DFState;
  detectionResults : list Q
}.

(** One iteration of the sample loop (lines 126-150). *)
Definition push_sample (windowSize shift : nat) (s : LoopState) (x : Q) : LoopState :=
  let (acc', w) := acc_push windowSize shift (overlap s) x in
  match w with
  | Some win =>
      let (df, st') := processTimeDomain (detectionFunction s) win in
      mkLoopState acc' st' (detectionResults s ++ [df])
  | None => mkLoopState acc' (detectionFunction s) (detectionResults s)
  end.

(** The conversion to mono (lines 112-123): one channel as is, two channels
    averaged, and of more channels the first two averaged. *)
Definition toMono (channels : Z) (buf : list Q) (framesRead : nat) : list Q :=
  if channels =? 1 then convertToDouble buf framesRead
  else if channels =? 2 then downmixToMono buf framesRead
  else
    map (fun i => ((nth (i * Z.to_nat channels) buf 0
                    + nth (i * Z.to_nat channels + 1) buf 0) * (1 # 2))%Q)
        (seq 0 framesRead).

(** The read loop (lines 105-151), with the fuel of [process_chunks]. *)
Fixpoint read_loop (fuel : nat) (f : SF.SNDFILE) (windowSize shift : nat) (pos : nat)
  (s : LoopState) : LoopState :=
  match fuel with
  | O => s
  | S fuel' =>
      let (framesRead, buf) := sf_readf_float f pos in
      if (framesRead =? 0)%nat then s
      else
        read_loop fuel' f windowSize shift (pos + framesRead)
          (fold_left (push_sample windowSize shift)
             (toMono (SF.channels (SF.sfinfo f)) buf framesRead) s)
  end.

(** The legacy [analyzer_analyze_file] on the outcome of [sf_open].  The
    sizes are converted to [size_t] as [Z.to_nat]; a non-positive sample
    rate (division by zero, negative sizes) is outside what this models. *)
Definition analyzer_analyze_file (file : sf_open_result) : Legacy.AnalyzerResult :=
  match file with
  | inr msg => Legacy.mkLegacyResult 0 [] 0 0 0 (Some msg)
  | inl f =>
      let info := SF.sfinfo f in
      let stepSizeFrames := Legacy.stepSizeFramesOf (SF.samplerate info) in
      let windowSize := nextPowerOfTwo (Z.quot (SF.samplerate info) Legacy.kMaximumBinSizeHz) in
      let s0 := mkLoopState (acc_init (Z.to_nat windowSize))
                  (DetectionFunction_new (makeDetectionFunctionConfig stepSizeFrames windowSize))
                  [] in
      let s := read_loop (S (Z.to_nat (SF.frames info))) f (Z.to_nat windowSize)
                 (Z.to_nat stepSizeFrames) 0 s0 in
      Legacy.analyze_from_df calculateBeatPeriod calculateBeats (SF.samplerate info)
        (SF.frames info) (detectionResults s)
  end.

End AnalyzeFile.
End LegacyFile.

(** The part of a streaming session that the legacy read loop also keeps. *)
Definition loopStateOf (DFState : Type) (a : QMAnalyzer DFState) : LegacyFile.LoopState DFState :=
  LegacyFile.mkLoopState DFState (overlap DFState a) (detectionFunction DFState a)
    (detectionResults DFState a).

(* ------------------------------------------------------------------------ *)
(** * libstdc++'s [std::sort] (bits/stl_algo.h, bits/stl_heap.h)

    The algorithm run by [std::sort] in a GCC build: introsort with a
    median-of-three pivot and an unguarded partition, a heapsort fallback
    once the depth limit [2 * __lg(n)] is used up, and a final insertion
    sort ([_S_threshold = 16]).  The vector is a list; iterators are
    absolute indices into it.  Loops carry fuel that is never exhausted on
    the runs considered. *)
Module Libstdcxx.
Section Sort.

Variable A : Type.
Variable d : A.
Variable comp : A -> A -> bool.

Definition get (v : list A) (i : nat) : A := nth i v d.

Fixpoint upd (v : list A) (i : nat) (x : A) : list A :=
  match v, i with
  | [], _ => []
  | _ :: t, O => x :: t
  | y :: t, S j => y :: upd t j x
  end.

Definition iter_swap (v : list A) (i j : nat) : list A :=
  upd (upd v i (get v j)) j (get v i).

Definition S_threshold : nat := 16.

(** [__move_median_to_first(result, a, b, c, comp)]. *)
Definition move_median_to_first (v : list A) (result a b c : nat) : list A :=
  if comp (get v a) (get v b) then
    if comp (get v b) (get v c) then iter_swap v result b
    else if comp (get v a) (get v c) then iter_swap v result c
    else iter_swap v result a
  else if comp (get v a) (get v c) then iter_swap v result a
  else if comp (get v b) (get v c) then iter_swap v result c
  else iter_swap v result b.

(** [while (comp(first, pivot)) ++first;] *)
Fixpoint advance_first (fuel : nat) (v : list A) (first pivot : nat) : nat :=
  match fuel with
  | O => first
  | S f => if comp (get v first) (get v pivot) then advance_first f v (S first) pivot else first
  end.

(** [while (comp(pivot, last)) --last;] *)
Fixpoint retreat_last (fuel : nat) (v : list A) (last pivot : nat) : nat :=
  match fuel with
  | O => last
  | S f => if comp (get v pivot) (get v last) then retreat_last f v (last - 1) pivot else last
  end.

(** [__unguarded_partition(first, last, pivot, comp)]. *)
Fixpoint unguarded_partition (fuel : nat) (v : list A) (first last pivot : nat) : list A * nat :=
  match fuel with
  | O => (v, first)
  | S f =>
      let first' := advance_first (length v) v first pivot in
      let last' := retreat_last (length v) v (last - 1) pivot in
      if negb (first' <? last')%nat then (v, first')
      else unguarded_partition f (iter_swap v first' last') (S first') last' pivot
  end.

(** [__unguarded_partition_pivot(first, last, comp)]. *)
Definition unguarded_partition_pivot (v : list A) (first last : nat) : list A * nat :=
  let mid := (first + (last - first) / 2)%nat in
  let v1 := move_median_to_first v first (S first) mid (last - 1) in
  unguarded_partition (length v) v1 (S first) last first.

(** [__push_heap(first, holeIndex, topIndex, value, comp)]. *)
Fixpoint push_heap (fuel : nat) (v : list A) (first hole top : nat) (value : A) : list A :=
  match fuel with
  | O => upd v (first + hole) value
  | S f =>
      let parent := ((hole - 1) / 2)%nat in
      if (top <? hole)%nat && comp (get v (first + parent)) value
      then push_heap f (upd v (first + hole) (get v (first + parent))) first parent top value
      else upd v (first + hole) value
  end.

(** The first loop of [__adjust_heap]:
    [while (secondChild < (len - 1) / 2) { ... }]; returns the vector, the
    hole and [secondChild]. *)
Fixpoint adjust_heap_down (fuel : nat) (v : list A) (first hole second len : nat)
  : list A * nat * nat :=
  match fuel with
  | O => (v, hole, second)
  | S f =>
      if (second <? (len - 1) / 2)%nat then
        let sc := (2 * (second + 1))%nat in
        let sc := if comp (get v (first + sc)) (get v (first + (sc - 1))) then (sc - 1)%nat else sc in
        adjust_heap_down f (upd v (first + hole) (get v (first + sc))) first sc sc len
      else (v, hole, second)
  end.

(** [__adjust_heap(first, holeIndex, len, value, comp)].  In C the test
    [secondChild == (len - 2) / 2] is on signed values; it can only hold
    when [len >= 2], which is written out. *)
Definition adjust_heap (v : list A) (first hole len : nat) (value : A) : list A :=
  let top := hole in
  let '(v1, hole1, second1) := adjust_heap_down (S len) v first hole hole len in
  let '(v2, hole2) :=
    if (len mod 2 =? 0)%nat && (2 <=? len)%nat && (second1 =? (len - 2) / 2)%nat then
      let sc := (2 * (second1 + 1))%nat in
      (upd v1 (first + hole1) (get v1 (first + (sc - 1))), (sc - 1)%nat)
    else (v1, hole1) in
  push_heap (S len) v2 first hole2 top value.

(** [__make_heap(first, last, comp)]: the loop over [parent] down to 0. *)
Fixpoint make_heap_loop (parent : nat) (v : list A) (first len : nat) : list A :=
  let v' := adjust_heap v first parent len (get v (first + parent)) in
  match parent with
  | O => v'
  | S p => make_heap_loop p v' first len
  end.

Definition make_heap (v : list A) (first last : nat) : list A :=
  let len := (last - first)%nat in
  if (len <? 2)%nat then v else make_heap_loop ((len - 2) / 2) v first len.

(** [__pop_heap(first, last, result, comp)]. *)
Definition pop_heap (v : list A) (first last result : nat) : list A :=
  let value := get v result in
  adjust_heap (upd v result (get v first)) first 0 (last - first) value.

(** [__sort_heap(first, last, comp)]. *)
Fixpoint sort_heap (fuel : nat) (v : list A) (first last : nat) : list A :=
  match fuel with
  | O => v
  | S f =>
      if (1 <? last - first)%nat then sort_heap f (pop_heap v first (last - 1) (last - 1)) first (last - 1)
      else v
  end.

(** The loop of [__heap_select] over [i] in [[middle, last)]. *)
Fixpoint heap_select_loop (n : nat) (v : list A) (first middle i : nat) : list A :=
  match n with
  | O => v
  | S k =>
      let v' := if comp (get v i) (get v first) then pop_heap v first middle i else v in
      heap_select_loop k v' first middle (S i)
  end.

(** [__partial_sort(first, middle, last, comp)]. *)
Definition partial_sort (v : list A) (first middle last : nat) : list A :=
  let v1 := heap_select_loop (last - middle) (make_heap v first middle) first middle middle in
  sort_heap (S (middle - first)) v1 first middle.

(** [__introsort_loop(first, last, depth_limit, comp)]: the recursive call on
    [[cut, last)] and the continuation of the [while] loop on [[first, cut)]
    both see the decremented depth limit. *)
Fixpoint introsort_loop (fuel : nat) (v : list A) (first last depth : nat) : list A :=
  match fuel with
  | O => v
  | S f =>
      if (S_threshold <? last - first)%nat then
        if (depth =? 0)%nat then partial_sort v first last last
        else
          let '(v1, cut) := unguarded_partition_pivot v first last in
          let v2 := introsort_loop f v1 cut last (depth - 1) in
          introsort_loop f v2 first cut (depth - 1)
      else v
  end.

(** [__unguarded_linear_insert(last, comp)]: shift the value left while it
    compares less than its left neighbour.  The fuel stops the scan at
    index 0, which the C code reaches only when its sentinel makes the scan
    stop there anyway. *)
Fixpoint linear_insert (fuel : nat) (v : list A) (last : nat) (val : A) : list A :=
  match fuel with
  | O => upd v last val
  | S f =>
      if comp val (get v (last - 1))
      then linear_insert f (upd v last (get v (last - 1))) (last - 1) val
      else upd v last val
  end.

Definition unguarded_linear_insert (v : list A) (last : nat) : list A :=
  linear_insert last v last (get v last).

(** [__insertion_sort(first, last, comp)]: the loop over [i]. *)
Fixpoint insertion_sort_loop (n : nat) (v : list A) (first i : nat) : list A :=
  match n with
  | O => v
  | S k =>
      let v' :=
        if comp (get v i) (get v first) then
          (* val = *i; move_backward(first, i, i + 1); *first = val; *)
          firstn first v ++ [get v i] ++ firstn (i - first) (skipn first v) ++ skipn (S i) v
        else unguarded_linear_insert v i in
      insertion_sort_loop k v' first (S i)
  end.

Definition insertion_sort (v : list A) (first last : nat) : list A :=
  if (first =? last)%nat then v else insertion_sort_loop (last - S first) v first (S first).

(** [__unguarded_insertion_sort(first, last, comp)]. *)
Fixpoint unguarded_insertion_sort (n : nat) (v : list A) (i : nat) : list A :=
  match n with
  | O => v
  | S k => unguarded_insertion_sort k (unguarded_linear_insert v i) (S i)
  end.

(** [__final_insertion_sort(first, last, comp)]. *)
Definition final_insertion_sort (v : list A) (first last : nat) : list A :=
  if (S_threshold <? last - first)%nat then
    unguarded_insertion_sort (last - (first + S_threshold))
      (insertion_sort v first (first + S_threshold)) (first + S_threshold)
  else insertion_sort v first last.

(** [std::__sort(first, last, comp)] on the whole vector. *)
Definition sort (v : list A) : list A :=
  let n := length v in
  if (n =? 0)%nat then v
  else final_insertion_sort (introsort_loop (S n) v 0 n (2 * Nat.log2 n)) 0 n.

End Sort.
End Libstdcxx.

(* ------------------------------------------------------------------------ *)
(** * Decision procedures used on concrete runs *)

Definition Q_eq_dec (x y : Q) : {x = y} + {x <> y}.
Proof. decide equality; [apply Pos.eq_dec | apply Z.eq_dec]. Defined.

Definition CuePoint_eq_dec (a b : CuePoint) : {a = b} + {a <> b}.
Proof. decide equality; first [apply Q_eq_dec | apply Z.eq_dec]. Defined.

(** Remove the first occurrence of [x]. *)
Fixpoint remove_one (x : CuePoint) (l : list CuePoint) : option (list CuePoint) :=
  match l with
  | [] => None
  | y :: t => if CuePoint_eq_dec x y then Some t
              else match remove_one x t with Some t' => Some (y :: t') | None => None end
  end.

Fixpoint permb (l1 l2 : list CuePoint) : bool :=
  match l1 with
  | [] => match l2 with [] => true | _ => false end
  | x :: t => match remove_one x l2 with Some l2' => permb t l2' | None => false end
  end.

(** No later cue compares less than an earlier one. *)
Definition sorted_pairs_b (l : list CuePoint) : bool :=
  forallb (fun i => forallb (fun j => negb (cue_less (nth j l cue0) (nth i l cue0)))
                            (seq (S i) (length l - S i)))
          (seq 0 (length l)).

(** Some section cue comes before a phrase cue of the same time. *)
Definition section_before_tied_phrase_b (l : list CuePoint) : bool :=
  existsb (fun i => existsb (fun j =>
      (type (nth i l cue0) =? CUE_TYPE_SECTION) && (type (nth j l cue0) =? CUE_TYPE_PHRASE)
      && Qeq_bool (time (nth i l cue0)) (time (nth j l cue0)))
    (seq (S i) (length l - S i))) (seq 0 (length l)).

(* ------------------------------------------------------------------------ *)
(** * A concrete instance of the primitives

    Stand-ins for the qm-dsp primitives with plausible outputs: a constant
    detection function, a beat at every DF index, a downbeat every 4 beats,
    a segmenter returning a fixed contiguous partition of the first
    10752 samples, and libstdc++'s sort. *)
Module CX.

Definition DFState : Type := unit.
Definition DetectionFunction_new (_ : DFConfig) : DFState := tt.
Definition processTimeDomain (st : DFState) (_ : list Q) : Q * DFState := (1%Q, st).
Definition calculateBeatPeriod (_ _ : Z) (_ : list Q) (n : nat) (_ : Q) (_ : bool) : list Z :=
  repeat 43 n.
Definition calculateBeats (_ _ : Z) (df : list Q) (_ : list Z) (_ _ : Q) : list Q :=
  map (fun i => inject_Z (Z.of_nat i)) (seq 0 (length df)).
Definition getBufferedAudio (_ : Z) (_ : nat) (_ _ : Z) (blocks : list (list Q)) : list Q :=
  List.concat (map (firstn 32) blocks).
Definition findDownBeats (_ : Z) (_ : nat) (_ _ : Z) (_ : list (list Q)) (_ : list Q)
  (bts : list Q) : list Z * list Q :=
  (map Z.of_nat (filter (fun i => (i mod 4 =? 0)%nat) (seq 0 (length bts))),
   map (fun _ => 0%Q) bts).
Definition getWindowsize (_ : SegPrim.ClusterMeltSegmenterParams) (_ : Z) : Z := 1024.
Definition getHopsize (_ : SegPrim.ClusterMeltSegmenterParams) (_ : Z) : Z := 512.

(** Segment starts (in samples): 0, 1280, then every 600 samples. *)
Definition segStarts : list Z := [0; 1280] ++ map (fun k => 1280 + 600 * Z.of_nat k) (seq 1 14).
Definition segmentation : SegPrim.Segmentation :=
  SegPrim.mkSegmentation
    (map (fun p => SegPrim.mkSegment (fst p) (snd p) (fst p mod 3))
         (combine segStarts (tl segStarts ++ [10752])))
    3.
Definition segment (_ : SegPrim.ClusterMeltSegmenterParams) (_ : Z) (_ : list (list Q)) (_ : Z)
  : SegPrim.Segmentation := segmentation.

Definition sort : list CuePoint -> list CuePoint := Libstdcxx.sort CuePoint cue0 cue_less.

(** [analyzer_create(44100, 1, NULL)]. *)
Definition created : QMAnalyzer DFState :=
  QMAnalyzer_new DFState DetectionFunction_new 44100 1 analyzer_default_config.

(** The session after one [analyzer_process] call with [n] silent samples. *)
Definition fed (n : nat) : QMAnalyzer DFState :=
  snd (analyzer_process DFState processTimeDomain created (repeat 0%Q n) n).

Abbreviation finalize a seg :=
  (analyzer_finalize DFState calculateBeatPeriod calculateBeats getBufferedAudio findDownBeats
     getWindowsize getHopsize segment sort a seg).

End CX.

(** A stable merge sort of cue points by time (the Standard Library's
    bottom-up merge sort), a second implementation of the [std::sort] call. *)
Module CueOrder <: Orders.TotalLeBool.
Definition t := CuePoint.
Definition leb (a b : CuePoint) : bool := Qle_bool (time a) (time b).
Lemma leb_total : forall a b, leb a b = true \/ leb b a = true.
Proof.
  intros a b. unfold leb. destruct (Qlt_le_dec (time a) (time b)) as [H|H].
  - left. apply Qle_bool_iff. apply Qlt_le_weak. exact H.
  - right. apply Qle_bool_iff. exact H.
Qed.
End CueOrder.

Module CueSort := Mergesort.Sort CueOrder.

(* ------------------------------------------------------------------------ *)
(** * Readings of the specification's words *)

(** "round(sampleRate * stepSeconds)" for a non-negative value: to nearest,
    halves up. *)
Definition spec_round (q : Q) : Z := Qfloor (q + (1 # 2)).

(** "when two cues tie exactly, phrase cues precede section cues". *)
Definition phrase_first_on_ties (l : list CuePoint) : Prop :=
  forall i j, (i < j < length l)%nat ->
    time (nth i l cue0) == time (nth j l cue0) ->
    type (nth i l cue0) = CUE_TYPE_SECTION -> type (nth j l cue0) <> CUE_TYPE_PHRASE.

(** "the mean of consecutive beat-time gaps". *)
Fixpoint gaps (bs : list Q) : list Q :=
  match bs with
  | b :: ((c :: _) as t) => (c - b)%Q :: gaps t
  | _ => []
  end.

Definition mean (xs : list Q) : Q :=
  (fold_right Qplus 0 xs / inject_Z (Z.of_nat (length xs)))%Q.

(** The default configuration with another [step_secs] or [num_clusters]. *)
Definition cfgWithStep (s : Q) : AnalyzerConfig :=
  {| df_type := DF_COMPLEXSD; step_secs := s; max_bin_hz := kDefaultMaxBinHz;
     db_rise := kDefaultDBRise; adaptive_whitening := 0; input_tempo := kDefaultInputTempo;
     constrain_tempo := 0; alpha := kDefaultAlpha; tightness := kDefaultTightness;
     beats_per_bar := kDefaultBeatsPerBar |}.

Definition segCfgWithClusters (n : Z) : Seg.AnalyzerSegmenterConfig :=
  {| Seg.feature_type := kDefaultSegFeatureType; Seg.hop_size := kDefaultSegHopSize;
     Seg.window_size := kDefaultSegWindowSize; Seg.num_clusters := n;
     Seg.num_hmm_states := kDefaultSegNumHMMStates |}.

(* ======================================================================== *)
(** * Properties *)

(** ** Decision procedures *)

Lemma remove_one_perm : forall x l l',
  remove_one x l = Some l' -> Permutation l (x :: l').
Proof.
  intros x l; induction l as [|y t IH]; intros l' H; simpl in H; [discriminate|].
  destruct (CuePoint_eq_dec x y) as [->|_].
  - injection H as <-. reflexivity.
  - destruct (remove_one x t) as [t'|] eqn:E; [|discriminate].
    injection H as <-.
    rewrite (IH t' eq_refl). apply perm_swap.
Qed.

Lemma permb_sound : forall l1 l2, permb l1 l2 = true -> Permutation l1 l2.
Proof.
  induction l1 as [|x t IH]; intros l2 H; simpl in H.
  - destruct l2; [constructor | discriminate].
  - destruct (remove_one x l2) as [l2'|] eqn:E; [|discriminate].
    rewrite (remove_one_perm _ _ _ E). constructor. now apply IH.
Qed.

Lemma sorted_pairs_b_sound : forall l, sorted_pairs_b l = true ->
  forall i j, (i < j < length l)%nat -> cue_less (nth j l cue0) (nth i l cue0) = false.
Proof.
  unfold sorted_pairs_b. intros l H i j Hij.
  rewrite forallb_forall in H.
  assert (Hi : In i (seq 0 (length l))) by (apply in_seq; lia).
  specialize (H i Hi). rewrite forallb_forall in H.
  assert (Hj : In j (seq (S i) (length l - S i))) by (apply in_seq; lia).
  specialize (H j Hj). now apply negb_true_iff in H.
Qed.

Lemma section_before_tied_phrase_b_sound : forall l,
  section_before_tied_phrase_b l = true -> ~ phrase_first_on_ties l.
Proof.
  unfold section_before_tied_phrase_b, phrase_first_on_ties. intros l H Hall.
  apply existsb_exists in H as [i [Hi H]]. apply existsb_exists in H as [j [Hj H]].
  apply in_seq in Hi. apply in_seq in Hj.
  apply andb_true_iff in H as [H Ht]. apply andb_true_iff in H as [Hs Hp].
  apply Z.eqb_eq in Hs. apply Z.eqb_eq in Hp. apply Qeq_bool_iff in Ht.
  exact (Hall i j ltac:(lia) Ht Hs Hp).
Qed.

(** ** Session creation (C6) *)

(** C6: [analyzer_create] returns the null handle exactly when the sample
    rate is not positive or the channel count is outside [1, 2]; otherwise
    it returns a session. *)
Theorem analyzer_create_null_iff :
  forall (DFState : Type) (DetectionFunction_new : DFConfig -> DFState)
         (sr ch : Z) (cfg : option AnalyzerConfig),
    analyzer_create DFState DetectionFunction_new sr ch cfg = None <->
    (sr <= 0 \/ ch <= 0 \/ 2 < ch).
Proof.
  intros. unfold analyzer_create, create_guard.
  destruct (sr <=? 0) eqn:E1; destruct (ch <=? 0) eqn:E2;
    destruct (2 <? ch) eqn:E3; simpl;
    rewrite ?Z.leb_le, ?Z.leb_gt, ?Z.ltb_lt, ?Z.ltb_ge in *;
    split; intros; try discriminate; try reflexivity; lia.
Qed.

(** ** Derived window and step sizes (C2) *)

Lemma isPowerOfTwo_true : forall x, isPowerOfTwo x = true -> exists k, 0 <= k /\ x = 2 ^ k.
Proof.
  unfold isPowerOfTwo. intros x H.
  destruct (x <? 1) eqn:E; [discriminate|]. apply Z.ltb_ge in E. apply Z.eqb_eq in H.
  exists (Z.log2 x). split; [apply Z.log2_nonneg|].
  destruct (Z.log2_spec x ltac:(lia)) as [Hlo Hhi].
  destruct (Z.eq_dec x (2 ^ Z.log2 x)) as [Heq|Hne]; [exact Heq|exfalso].
  assert (Hl : Z.log2 (x - 1) = Z.log2 x).
  { apply Z.log2_unique; [apply Z.log2_nonneg|].
    rewrite Z.pow_succ_r in Hhi by apply Z.log2_nonneg.
    rewrite Z.pow_succ_r by apply Z.log2_nonneg. lia. }
  assert (Hb : Z.testbit (Z.land x (x - 1)) (Z.log2 x) = true).
  { rewrite Z.land_spec, Z.bit_log2 by lia. simpl.
    rewrite <- Hl. apply Z.bit_log2.
    rewrite Z.pow_succ_r in Hhi by apply Z.log2_nonneg.
    assert (0 < 2 ^ Z.log2 x) by (apply Z.pow_pos_nonneg; [lia|apply Z.log2_nonneg]). lia. }
  rewrite H, Z.testbit_0_l in Hb. discriminate.
Qed.

Lemma npot_loop_pow : forall fuel x j,
  1 <= x -> Z.log2 x < Z.of_nat fuel -> 0 <= j -> j + Z.log2 x + 1 <= 30 ->
  npot_loop fuel x (2 ^ j) = 2 ^ (j + Z.log2 x + 1).
Proof.
  induction fuel as [|f IH]; intros x j Hx Hf Hj Hb; [pose proof (Z.log2_nonneg x); lia|].
  cbn [npot_loop]. destruct (x =? 0) eqn:E; [apply Z.eqb_eq in E; lia|].
  pose proof (Z.log2_nonneg x) as Hl0.
  assert (Hw : wrap32 (Z.shiftl (2 ^ j) 1) = 2 ^ (j + 1)).
  { rewrite Z.shiftl_mul_pow2 by lia. rewrite <- Z.pow_add_r by lia. unfold wrap32.
    assert (2 ^ (j + 1) <= 2 ^ 30) by (apply Z.pow_le_mono_r; lia).
    assert (0 < 2 ^ (j + 1)) by (apply Z.pow_pos_nonneg; lia).
    change (2 ^ 31) with 2147483648 in *. change (2 ^ 32) with 4294967296.
    change (2 ^ 30) with 1073741824 in *.
    rewrite Z.mod_small; lia. }
  rewrite Hw.
  destruct (Z.eq_dec x 1) as [->|Hne].
  - change (Z.shiftr 1 1) with 0. change (Z.log2 1) with 0.
    destruct f; cbn [npot_loop]; [f_equal; lia|]. rewrite Z.eqb_refl. f_equal; lia.
  - rewrite Z.shiftr_div_pow2 by lia. change (2 ^ 1) with 2.
    assert (Hx2 : 1 <= x / 2) by (apply Z.div_le_lower_bound; lia).
    assert (Hl : Z.log2 (x / 2) = Z.log2 x - 1).
    { replace (x / 2) with (Z.shiftr x 1) by (rewrite Z.shiftr_div_pow2 by lia; reflexivity).
      rewrite Z.log2_shiftr by lia.
      assert (1 <= Z.log2 x) by (apply Z.log2_le_pow2; lia). lia. }
    rewrite IH by lia. f_equal. lia.
Qed.

Lemma nextPowerOfTwo_pow2 : forall x, x <= 2 ^ 30 ->
  exists k, 0 <= k /\ nextPowerOfTwo x = 2 ^ k.
Proof.
  intros x Hx. unfold nextPowerOfTwo.
  destruct (isPowerOfTwo x) eqn:Hp; [now apply isPowerOfTwo_true|].
  destruct (x <? 1) eqn:E; [exists 0; split; reflexivity|].
  apply Z.ltb_ge in E.
  assert (Hne : x <> 2 ^ 30) by (intros ->; discriminate Hp).
  assert (Hl : Z.log2 x <= 29).
  { apply Z.lt_succ_r. apply Z.log2_lt_pow2; [lia|]. change (2 ^ Z.succ 29) with (2 ^ 30). lia. }
  exists (Z.log2 x + 1). split; [pose proof (Z.log2_nonneg x); lia|].
  pose proof (Z.log2_nonneg x).
  change (npot_loop 32 x 1) with (npot_loop 32 x (2 ^ 0)).
  rewrite npot_loop_pow by lia. f_equal.
Qed.

Lemma effStepSecs_pos : forall cfg, (0 < effStepSecs cfg)%Q.
Proof.
  intros cfg. unfold effStepSecs, Qpos_b.
  destruct (Qle_bool (step_secs cfg) 0) eqn:E; simpl.
  - reflexivity.
  - apply Qnot_le_lt. intros H. apply Qle_bool_iff in H. congruence.
Qed.

Lemma effMaxBinHz_pos : forall cfg, 0 < effMaxBinHz cfg.
Proof.
  intros cfg. unfold effMaxBinHz. destruct (0 <? max_bin_hz cfg) eqn:E.
  - now apply Z.ltb_lt.
  - reflexivity.
Qed.

(** ** binary32 rounding below 2^24 *)

Lemma inject_Z_pos : forall z, 0 < z -> (0 < inject_Z z)%Q.
Proof. intros z H. unfold Qlt; simpl. lia. Qed.

Lemma inject_Z_nonneg : forall z, 0 <= z -> (0 <= inject_Z z)%Q.
Proof. intros z H. unfold Qle; simpl. lia. Qed.

Lemma pow2Q_nonneg_exp : forall e, 0 <= e -> pow2Q e = inject_Z (2 ^ e).
Proof. intros e He. unfold pow2Q. apply Z.leb_le in He. now rewrite He. Qed.

Lemma pow2Q_le_frac : forall e n d, 0 < n ->
  (if 0 <=? e then 2 ^ e * Zpos d <= n else Zpos d <= n * 2 ^ (- e)) ->
  (pow2Q e <= n # d)%Q.
Proof.
  intros e n d Hn H. unfold pow2Q. destruct (0 <=? e) eqn:E.
  - unfold Qle; simpl. lia.
  - apply Z.leb_gt in E.
    assert (Hp : 0 < 2 ^ (- e)) by (apply Z.pow_pos_nonneg; lia).
    unfold Qle; simpl. rewrite Z2Pos.id by exact Hp. lia.
Qed.

Lemma Qlog2_floor_le : forall q, (0 < q)%Q -> (pow2Q (Qlog2_floor q) <= q)%Q.
Proof.
  intros [n d] Hq. unfold Qlt in Hq. simpl in Hq.
  assert (Hn : 0 < n) by lia.
  unfold Qlog2_floor. simpl Qnum. simpl Qden.
  set (a := Z.log2 n). set (b := Z.log2 (Zpos d)).
  destruct (Qle_bool (pow2Q (a - b)) (n # d)) eqn:E.
  - now apply Qle_bool_iff.
  - apply pow2Q_le_frac; [exact Hn|].
    destruct (Z.log2_spec n Hn) as [Ha _].
    destruct (Z.log2_spec (Zpos d) eq_refl) as [_ Hb].
    fold a in Ha. fold b in Hb.
    assert (Ha0 : 0 <= a) by apply Z.log2_nonneg.
    assert (Hb0 : 0 <= b) by apply Z.log2_nonneg.
    destruct (0 <=? a - b - 1) eqn:E1.
    + apply Z.leb_le in E1.
      assert (Hpow : 2 ^ a = 2 ^ (a - b - 1) * 2 ^ Z.succ b).
      { rewrite <- Z.pow_add_r by lia. f_equal. lia. }
      assert (0 < 2 ^ (a - b - 1)) by (apply Z.pow_pos_nonneg; lia).
      nia.
    + apply Z.leb_gt in E1.
      assert (Hpow : 2 ^ Z.succ b = 2 ^ a * 2 ^ (- (a - b - 1))).
      { rewrite <- Z.pow_add_r by lia. f_equal. lia. }
      assert (0 < 2 ^ (- (a - b - 1))) by (apply Z.pow_pos_nonneg; lia).
      nia.
Qed.

Lemma Qlog2_floor_small : forall q, (0 < q)%Q -> (q < inject_Z (2 ^ 24))%Q ->
  Qlog2_floor q <= 23.
Proof.
  intros q Hq Hlt. pose proof (Qlog2_floor_le q Hq) as Hle.
  destruct (Z.le_gt_cases (Qlog2_floor q) 23) as [H|H]; [exact H|exfalso].
  rewrite pow2Q_nonneg_exp in Hle by lia.
  assert (Hm : 2 ^ 24 <= 2 ^ Qlog2_floor q) by (apply Z.pow_le_mono_r; lia).
  apply (Qlt_not_le _ _ Hlt). apply (Qle_trans _ (inject_Z (2 ^ Qlog2_floor q))); [|exact Hle].
  rewrite <- Zle_Qle. exact Hm.
Qed.

Lemma round_ne_cases : forall s,
  round_ne s = Qfloor s \/ (round_ne s = Qfloor s + 1 /\ (inject_Z (Qfloor s) < s)%Q).
Proof.
  intros s. unfold round_ne.
  destruct (Qle_bool (1 # 2) (s - inject_Z (Qfloor s))) eqn:E; [|left; reflexivity].
  apply Qle_bool_iff in E.
  assert (Hlt : (inject_Z (Qfloor s) < s)%Q).
  { apply Qnot_le_lt. intros Hc.
    assert (Hs : (s - inject_Z (Qfloor s) <= 0)%Q).
    { apply (Qplus_le_l _ _ (inject_Z (Qfloor s))). ring_simplify. exact Hc. }
    apply (Qle_not_lt _ _ (Qle_trans _ _ _ E Hs)). reflexivity. }
  destruct (Qeq_bool _ _); [destruct (Z.even _)|]; auto.
Qed.

Lemma round_ne_lower : forall s z, (inject_Z z <= s)%Q -> z <= round_ne s.
Proof.
  intros s z H.
  assert (Hf : z <= Qfloor s) by (rewrite <- (Qfloor_Z z); apply Qfloor_resp_le; exact H).
  destruct (round_ne_cases s) as [-> | [-> _]]; lia.
Qed.

Lemma round_ne_upper : forall s z, (s <= inject_Z z)%Q -> round_ne s <= z.
Proof.
  intros s z H.
  assert (Hf : Qfloor s <= z) by (rewrite <- (Qfloor_Z z); apply Qfloor_resp_le; exact H).
  destruct (round_ne_cases s) as [-> | [-> Hlt]]; [exact Hf|].
  assert (Hz : Qfloor s < z).
  { rewrite Zlt_Qlt. exact (Qlt_le_trans _ _ _ Hlt H). }
  lia.
Qed.

(** Below 2^24 the last place is at most 1: rounding keeps every integer
    bound of its argument. *)
Lemma binary32_round_small : forall x, (0 < x)%Q -> (x < inject_Z (2 ^ 24))%Q ->
  exists r, binary32_round x = Some r /\
    (forall z, (inject_Z z <= x)%Q -> (inject_Z z <= r)%Q) /\
    (forall z, (x <= inject_Z z)%Q -> (r <= inject_Z z)%Q).
Proof.
  intros x Hx Hlt.
  assert (Hk : Z.max (Qlog2_floor x - 23) (-149) <= 0)
    by (pose proof (Qlog2_floor_small x Hx Hlt); lia).
  set (k := Z.max (Qlog2_floor x - 23) (-149)) in Hk.
  set (M := 2 ^ (- k)).
  assert (HM : 0 < M) by (apply Z.pow_pos_nonneg; lia).
  assert (Hpk : (pow2Q k == / inject_Z M)%Q).
  { unfold pow2Q. destruct (0 <=? k) eqn:E.
    - apply Z.leb_le in E. assert (Hk0 : k = 0) by lia. unfold M. rewrite Hk0. reflexivity.
    - fold M. destruct M as [|p|p]; try lia. reflexivity. }
  assert (HMq : (0 < inject_Z M)%Q) by (apply inject_Z_pos; exact HM).
  assert (Hdiv : (x / pow2Q k == x * inject_Z M)%Q).
  { unfold Qdiv. rewrite Hpk, Qinv_involutive. reflexivity. }
  set (m := round_ne (x / pow2Q k)).
  assert (Hr : (inject_Z m * pow2Q k == inject_Z m / inject_Z M)%Q).
  { unfold Qdiv. rewrite Hpk. reflexivity. }
  assert (Hlo : forall z, (inject_Z z <= x)%Q -> (inject_Z z <= inject_Z m * pow2Q k)%Q).
  { intros z Hz. rewrite Hr. apply Qle_shift_div_l; [exact HMq|].
    rewrite <- inject_Z_mult, <- Zle_Qle. apply round_ne_lower.
    rewrite Hdiv, inject_Z_mult. apply Qmult_le_compat_r; [exact Hz|].
    apply Qlt_le_weak; exact HMq. }
  assert (Hhi : forall z, (x <= inject_Z z)%Q -> (inject_Z m * pow2Q k <= inject_Z z)%Q).
  { intros z Hz. rewrite Hr. apply Qle_shift_div_r; [exact HMq|].
    rewrite <- inject_Z_mult, <- Zle_Qle. apply round_ne_upper.
    rewrite Hdiv, inject_Z_mult. apply Qmult_le_compat_r; [exact Hz|].
    apply Qlt_le_weak; exact HMq. }
  unfold binary32_round.
  replace (Qle_bool x 0) with false
    by (symmetry; apply not_true_iff_false; rewrite Qle_bool_iff; apply Qlt_not_le; exact Hx).
  unfold binary32_round_pos. fold k. fold m.
  replace (Qle_bool (pow2Q 128) (inject_Z m * pow2Q k)) with false.
  - exists (inject_Z m * pow2Q k)%Q. auto.
  - symmetry. apply not_true_iff_false. rewrite Qle_bool_iff. apply Qlt_not_le.
    apply (Qle_lt_trans _ _ _ (Hhi (2 ^ 24) (Qlt_le_weak _ _ Hlt))).
    rewrite pow2Q_nonneg_exp by lia. rewrite <- Zlt_Qlt. reflexivity.
Qed.

Lemma f32_int_mul_small : forall i x, 0 < i < 2 ^ 24 -> (0 < x)%Q ->
  (inject_Z i * x < inject_Z (2 ^ 24))%Q ->
  exists p, f32_int_mul i x = Some p /\
    (forall z, (inject_Z z <= inject_Z i * x)%Q -> (inject_Z z <= p)%Q) /\
    (forall z, (inject_Z i * x <= inject_Z z)%Q -> (p <= inject_Z z)%Q).
Proof.
  intros i x Hi Hx Hlt.
  destruct (binary32_round_small (inject_Z i)) as [fi [Hfi [Hlo Hhi]]].
  - apply inject_Z_pos. lia.
  - rewrite <- Zlt_Qlt. lia.
  - assert (Heq : (fi == inject_Z i)%Q)
      by (apply Qle_antisym; [apply Hhi | apply Hlo]; apply Qle_refl).
    assert (Hpos : (0 < inject_Z i * x)%Q).
    { apply Qmult_lt_0_compat; [apply inject_Z_pos; lia | exact Hx]. }
    destruct (binary32_round_small (fi * x)) as [p [Hp [Hlo' Hhi']]];
      [rewrite Heq; exact Hpos | rewrite Heq; exact Hlt |].
    exists p. unfold f32_int_mul. rewrite Hfi, Hp. split; [reflexivity|].
    split; intros z Hz; [apply Hlo' | apply Hhi']; rewrite Heq; exact Hz.
Qed.

Lemma float_to_int_small : forall p, (0 <= p)%Q -> (p <= inject_Z (2 ^ 24))%Q ->
  float_to_int (Some p) = Qfloor p.
Proof.
  intros [n d] H0 H1. unfold float_to_int, trunc_to_int, Qfloor. simpl.
  unfold Qle in H0, H1. simpl in H0, H1.
  rewrite Z.quot_div_nonneg by lia.
  assert (0 <= n / Zpos d) by (apply Z.div_pos; lia).
  assert (n / Zpos d <= 2 ^ 24) by (apply Z.div_le_upper_bound; lia).
  destruct ((_ <=? n / Zpos d) && (n / Zpos d <? _)) eqn:E; [reflexivity|].
  exfalso. apply andb_false_iff in E as [E|E];
    [apply Z.leb_gt in E | apply Z.ltb_ge in E]; lia.
Qed.

(** The step bound: between floor and ceiling of the exact product. *)
Lemma float_step_bounds : forall i x, 0 < i < 2 ^ 24 -> (0 < x)%Q ->
  (inject_Z i * x < inject_Z (2 ^ 24))%Q ->
  (exists p, f32_int_mul i x = Some p /\ float_to_int (f32_int_mul i x) = Qfloor p) /\
  0 <= float_to_int (f32_int_mul i x) /\
  Qfloor (inject_Z i * x) <= float_to_int (f32_int_mul i x) <= Qceiling (inject_Z i * x).
Proof.
  intros i x Hi Hx Hlt.
  destruct (f32_int_mul_small i x Hi Hx Hlt) as [p [Hp [Hlo Hhi]]].
  assert (H0 : (0 <= p)%Q) by (apply (Hlo 0); apply Qmult_le_0_compat;
                               [apply inject_Z_nonneg; lia | apply Qlt_le_weak; exact Hx]).
  assert (H1 : (p <= inject_Z (2 ^ 24))%Q) by (apply Hhi; apply Qlt_le_weak; exact Hlt).
  rewrite Hp, float_to_int_small by assumption.
  split; [exists p; split; reflexivity|].
  split; [rewrite <- (Qfloor_Z 0); apply Qfloor_resp_le; exact H0|].
  split.
  - rewrite <- (Qfloor_Z (Qfloor (inject_Z i * x))). apply Qfloor_resp_le.
    apply Hlo. apply Qfloor_le.
  - rewrite <- (Qfloor_Z (Qceiling (inject_Z i * x))). apply Qfloor_resp_le.
    apply Hhi. apply Qle_ceiling.
Qed.

(** C2 (counterexample): the step is the product truncated, not rounded, and
    it can be 0 for a positive [step_secs].  At 8000 Hz with
    [step_secs = 2^-14] (a float value) the step is 0; at 22050 Hz with
    [step_secs = 2^-10] the product is 21.53..., the step is 21 and the
    rounded value is 22.  Nor is it the exact product truncated: at 57795 Hz
    with the default [0.01161f] the exact product is 670.99997..., whose
    binary32 rounding is 671, so the step is 671. *)
Lemma ctor_step_counterexample :
  ~ (1 <= ctorStepSizeFrames 8000 (cfgWithStep (1 # 16384))) /\
  ctorStepSizeFrames 22050 (cfgWithStep (1 # 1024)) = 21 /\
  spec_round (inject_Z 22050 * step_secs (cfgWithStep (1 # 1024))) = 22 /\
  ctorStepSizeFrames 57795 analyzer_default_config = 671 /\
  Qfloor (inject_Z 57795 * step_secs analyzer_default_config) = 670.
Proof.
  split; [|split; [|split; [|split]]]; vm_compute;
    [intros H; apply H; reflexivity | reflexivity | reflexivity | reflexivity | reflexivity].
Qed.

(** C2 (amended): for a positive sample rate, with non-positive fields
    replaced by their defaults, the window size is a power of two (so at
    least 1) as long as [sampleRate / maxBinHz <= 2^30].  The step is the
    binary32 product [sampleRate * stepSecs] truncated toward zero; for a
    sample rate below 2^24 and an exact product below 2^24 that product is
    finite, the step is its floor, non-negative, and lies between the floor
    and the ceiling of the exact product [sampleRate * stepSecs]. *)
Theorem ctor_sizes :
  forall (sr : Z) (cfg : AnalyzerConfig),
    0 < sr -> Z.quot sr (effMaxBinHz cfg) <= 2 ^ 30 ->
    (exists k, 0 <= k /\ ctorWindowSize sr cfg = 2 ^ k) /\
    (sr < 2 ^ 24 -> (inject_Z sr * effStepSecs cfg < inject_Z (2 ^ 24))%Q ->
       (exists p, f32_int_mul sr (effStepSecs cfg) = Some p /\
                  ctorStepSizeFrames sr cfg = Qfloor p) /\
       0 <= ctorStepSizeFrames sr cfg /\
       Qfloor (inject_Z sr * effStepSecs cfg) <= ctorStepSizeFrames sr cfg <=
         Qceiling (inject_Z sr * effStepSecs cfg)).
Proof.
  intros sr cfg Hsr Hq.
  split; [now apply nextPowerOfTwo_pow2|].
  intros H24 Hlt. unfold ctorStepSizeFrames.
  apply float_step_bounds; [lia | apply effStepSecs_pos | exact Hlt].
Qed.

(** ** The overlap accumulator (C9) *)

Section Overlap.

Variables W s : nat.
Hypothesis Hs : (0 < s < W)%nat.

Lemma set_nth_length : forall l i x, length (set_nth l i x) = length l.
Proof.
  induction l as [|y t IH]; intros [|i] x; simpl; auto.
Qed.

Lemma firstn_set_nth : forall l i x, (i < length l)%nat ->
  firstn (S i) (set_nth l i x) = firstn i l ++ [x].
Proof.
  induction l as [|y t IH]; intros [|i] x H; simpl in *; try lia; [reflexivity|].
  rewrite IH by lia. reflexivity.
Qed.

Lemma firstn_add_skipn : forall (l : list Q) i j,
  firstn (i + j) l = firstn i l ++ firstn j (skipn i l).
Proof.
  intros l i; revert l; induction i as [|i IH]; intros [|y t] j; simpl; auto.
  - destruct j; reflexivity.
  - rewrite IH. reflexivity.
Qed.

Lemma window_prefix : forall (q t : list Q) k, (k + W <= length q)%nat ->
  firstn W (skipn k (q ++ t)) = firstn W (skipn k q).
Proof.
  intros q t k H. rewrite skipn_app, firstn_app, length_skipn.
  replace (k - length q)%nat with O by lia.
  replace (W - (length q - k))%nat with O by lia. simpl. apply app_nil_r.
Qed.

(** The state of the accumulator after the prefix [p] of the stream has
    been pushed and [m] windows emitted: the buffer holds the [overlapPos]
    samples of [p] from [m * s] on, and after the first window at least the
    overlap [W - s] is kept. *)
Definition acc_inv (p : list Q) (m : nat) (a : OverlapAcc) : Prop :=
  length (overlapBuffer a) = W /\ (overlapPos a < W)%nat /\ (m * s <= length p)%nat /\
  firstn (overlapPos a) (overlapBuffer a) = skipn (m * s) p /\
  (m = O \/ W - s <= overlapPos a)%nat.

Lemma acc_inv_pos : forall p m a, acc_inv p m a -> overlapPos a = (length p - m * s)%nat.
Proof.
  intros p m a [Hl [Hp [_ [Hf _]]]]. apply (f_equal (@length Q)) in Hf.
  rewrite length_firstn, length_skipn in Hf. lia.
Qed.

Lemma acc_inv_init : acc_inv [] O (acc_init W).
Proof.
  unfold acc_inv, acc_init. cbn [overlapBuffer overlapPos]. rewrite repeat_length.
  repeat split; try lia; auto.
Qed.

Lemma acc_push_spec : forall p m a x, acc_inv p m a ->
  match acc_push W s a x with
  | (a1, None) => acc_inv (p ++ [x]) m a1
  | (a1, Some win) =>
      (m * s + W <= length (p ++ [x]))%nat /\
      win = firstn W (skipn (m * s) (p ++ [x])) /\ acc_inv (p ++ [x]) (S m) a1
  end.
Proof.
  intros p m a x Hinv. pose proof (acc_inv_pos _ _ _ Hinv) as Hpos.
  destruct Hinv as [Hl [Hp [Hms [Hf Hov]]]].
  set (buf := set_nth (overlapBuffer a) (overlapPos a) x).
  assert (Hbl : length buf = W) by (unfold buf; rewrite set_nth_length; exact Hl).
  assert (Hbf : firstn (S (overlapPos a)) buf = skipn (m * s) (p ++ [x])).
  { unfold buf. rewrite firstn_set_nth by lia. rewrite Hf, skipn_app.
    replace (m * s - length p)%nat with O by lia. reflexivity. }
  assert (Hlen : length (p ++ [x]) = (m * s + S (overlapPos a))%nat)
    by (rewrite length_app; simpl; lia).
  unfold acc_push. fold buf.
  destruct (W <=? S (overlapPos a))%nat eqn:E.
  - apply Nat.leb_le in E. replace (s <? W)%nat with true by (symmetry; apply Nat.ltb_lt; lia).
    assert (Hbuf : buf = skipn (m * s) (p ++ [x])).
    { rewrite <- Hbf. replace (S (overlapPos a)) with W by lia.
      symmetry. apply firstn_all2. lia. }
    split; [lia|]. split.
    + rewrite <- Hbuf. symmetry. apply firstn_all2. lia.
    + unfold acc_inv. simpl. rewrite length_app, !length_skipn. split; [lia|].
      split; [lia|]. split; [nia|]. split; [|right; lia].
      rewrite firstn_app, length_skipn.
      replace (W - s - (length buf - s))%nat with O by lia.
      rewrite firstn_all2 by (rewrite length_skipn; lia).
      rewrite app_nil_r, Hbuf, skipn_skipn; f_equal; lia.
  - apply Nat.leb_gt in E. unfold acc_inv. simpl. split; [exact Hbl|].
    split; [lia|]. split; [rewrite length_app; simpl; lia|]. split; [exact Hbf|]. lia.
Qed.

Lemma acc_run_spec : forall xs p m a,
  acc_inv p m a ->
  exists m',
    snd (acc_run W s a xs) = map (fun k => firstn W (skipn (k * s) (p ++ xs))) (seq m m') /\
    acc_inv (p ++ xs) (m + m') (fst (acc_run W s a xs)).
Proof.
  induction xs as [|x t IH]; intros p m a Hinv.
  - exists O. simpl. rewrite app_nil_r, Nat.add_0_r. split; [reflexivity | exact Hinv].
  - pose proof (acc_push_spec p m a x Hinv) as Hpush. simpl.
    destruct (acc_push W s a x) as [a1 [win|]].
    + destruct Hpush as [Hb [Hwin Hinv1]].
      destruct (IH (p ++ [x]) (S m) a1 Hinv1) as [m' [Hws Hinv']].
      destruct (acc_run W s a1 t) as [a2 ws]. simpl in *.
      exists (S m'). rewrite <- app_assoc in Hws, Hinv'. simpl in Hws, Hinv'.
      split.
      * rewrite Hws, Hwin. simpl. f_equal.
        replace (p ++ x :: t) with ((p ++ [x]) ++ t) by (rewrite <- app_assoc; reflexivity).
        symmetry. apply window_prefix. lia.
      * replace (m + S m')%nat with (S m + m')%nat by lia. exact Hinv'.
    + destruct (IH (p ++ [x]) m a1 Hpush) as [m' [Hws Hinv']].
      destruct (acc_run W s a1 t) as [a2 ws]. simpl in *.
      exists m'. rewrite <- app_assoc in Hws, Hinv'. simpl in Hws, Hinv'.
      split; assumption.
Qed.

Lemma reconstruct_windows : forall (xs : list Q) j,
  firstn W xs ++
    List.concat (map (fun w => skipn (W - s) w)
                   (map (fun k => firstn W (skipn (k * s) xs)) (seq 1 j)))
  = firstn (W + j * s) xs.
Proof.
  intros xs j; induction j as [|j IH].
  - simpl. rewrite Nat.add_0_r. apply app_nil_r.
  - rewrite seq_S, !map_app, concat_app, app_assoc, IH. cbn [map List.concat].
    rewrite app_nil_r, skipn_firstn_comm, skipn_skipn.
    assert (E1 : (W - (W - s))%nat = s) by lia.
    assert (E2 : (W - s + (1 + j) * s)%nat = (W + j * s)%nat) by nia.
    rewrite E1, E2, <- firstn_add_skipn. f_equal. nia.
Qed.

Lemma nth_map_seq0 : forall (A : Type) (f : nat -> A) k m d, (k < m)%nat ->
  nth k (map f (seq 0 m)) d = f k.
Proof.
  intros A f k m d H. rewrite nth_indep with (d' := f O) by (rewrite length_map, length_seq; exact H).
  rewrite map_nth, seq_nth by exact H. reflexivity.
Qed.

(** C9: fed a stream [xs] from a fresh accumulator with [0 < s < W], the
    [k]-th emitted window is exactly the [W] samples of [xs] from [k * s];
    all samples past the last window are still buffered (fewer than a step
    beyond it); and the first window followed by the last [s] samples of
    each later window rebuilds the stream exactly over the covered range
    [0, W + (n - 1) s). *)
Theorem overlap_lossless : forall xs,
  let ws := snd (acc_run W s (acc_init W) xs) in
  (forall k, (k < length ws)%nat ->
     nth k ws [] = firstn W (skipn (k * s) xs) /\ length (nth k ws []) = W) /\
  (length xs < W + length ws * s)%nat /\
  (ws <> [] ->
     (W + (length ws - 1) * s <= length xs)%nat /\
     reconstruct W s ws = firstn (W + (length ws - 1) * s) xs).
Proof.
  intros xs ws.
  destruct (acc_run_spec xs [] O (acc_init W) acc_inv_init) as [m [Hws Hinv]].
  fold ws in Hws. simpl in Hws, Hinv.
  pose proof (acc_inv_pos _ _ _ Hinv) as Hpos.
  destruct Hinv as [_ [Hp [Hms [_ Hov]]]].
  assert (Hlen : length ws = m) by (rewrite Hws, length_map, length_seq; reflexivity).
  assert (Hcov : m = O \/ (W + (m - 1) * s <= length xs)%nat).
  { destruct m as [|m']; [now left | right].
    destruct Hov as [Hov | Hov]; [discriminate|].
    replace (S m' - 1)%nat with m' by lia. simpl in Hpos, Hms. nia. }
  split; [|split].
  - intros k Hk. rewrite Hws.
    rewrite nth_map_seq0 by (rewrite <- Hlen; exact Hk). split; [reflexivity|].
    rewrite length_firstn, length_skipn.
    destruct Hcov as [-> | Hcov]; [lia|]. nia.
  - rewrite Hlen. lia.
  - intros Hne. destruct Hcov as [Hm | Hcov].
    { subst m. destruct ws; [contradiction|discriminate]. }
    rewrite Hlen. split; [exact Hcov|].
    rewrite Hws. destruct m as [|m']; [lia|].
    simpl seq. cbn [map reconstruct]. rewrite Nat.mul_0_l. simpl skipn.
    rewrite <- seq_shift, map_map.
    replace (S m' - 1)%nat with m' by lia.
    rewrite <- (reconstruct_windows xs m'). f_equal. f_equal.
    rewrite <- seq_shift, !map_map. reflexivity.
Qed.

End Overlap.

(** ** The tempo stage of [analyzer_finalize] *)

Lemma nonZeroCount_loop_spec : forall dr n, (n <= length dr)%nat ->
  let k := nonZeroCount_loop dr n in
  (k <= n)%nat /\
  (forall i, (k <= i < n)%nat -> (nth i dr 0 <= 0)%Q) /\
  (k = O \/ ~ (nth (k - 1) dr 0 <= 0)%Q).
Proof.
  intros dr n; induction n as [|m IH]; intros Hn; simpl.
  - split; [lia|]. split; [intros; lia | now left].
  - destruct (Qle_bool (nth m dr 0%Q) 0%Q) eqn:E.
    + destruct (IH ltac:(lia)) as [H1 [H2 H3]]. split; [lia|]. split; [|exact H3].
      intros i Hi. destruct (Nat.eq_dec i m) as [->|Hne].
      * now apply Qle_bool_iff.
      * apply H2. lia.
    + split; [lia|]. split; [intros; lia|]. right. simpl. rewrite Nat.sub_0_r.
      intros H. apply Qle_bool_iff in H. congruence.
Qed.

(** The count kept by the trailing-silence loop: everything from it on is
    [<= 0], the value just before it (if any) is [> 0]. *)
Lemma nonZeroCount_spec : forall dr,
  (nonZeroCount dr <= length dr)%nat /\
  (forall i, (nonZeroCount dr <= i < length dr)%nat -> (nth i dr 0 <= 0)%Q) /\
  (nonZeroCount dr = O \/ ~ (nth (nonZeroCount dr - 1) dr 0 <= 0)%Q).
Proof. intros dr. exact (nonZeroCount_loop_spec dr (length dr) (le_n _)). Qed.

Lemma map_nth_seq_firstn_skipn : forall (l : list Q) n st,
  (st + n <= length l)%nat ->
  map (fun i => nth i l 0%Q) (seq st n) = firstn n (skipn st l).
Proof.
  intros l n; induction n as [|n IH]; intros st H; [reflexivity|].
  simpl. rewrite IH by lia.
  destruct (skipn st l) as [|y t] eqn:E.
  - apply (f_equal (@length Q)) in E. rewrite length_skipn in E. simpl in E. lia.
  - assert (Hy : nth st l 0%Q = y).
    { rewrite <- (firstn_skipn st l), E, app_nth2; rewrite length_firstn; [|lia].
      replace (st - Nat.min st (length l))%nat with O by lia. reflexivity. }
    assert (Ht : skipn (S st) l = t).
    { replace (S st) with (1 + st)%nat by lia. rewrite <- skipn_skipn, E. reflexivity. }
    rewrite Hy, Ht. reflexivity.
Qed.

(** [trimmedDF dr nz] drops the first 2 values and everything from [nz] on. *)
Lemma trimmedDF_eq : forall dr,
  trimmedDF dr (nonZeroCount dr) = firstn (nonZeroCount dr - 2) (skipn 2 dr).
Proof.
  intros dr. unfold trimmedDF. destruct (nonZeroCount_spec dr) as [H _].
  destruct (Nat.le_gt_cases (nonZeroCount dr) 2).
  - replace (nonZeroCount dr - 2)%nat with O by lia. reflexivity.
  - apply map_nth_seq_firstn_skipn. lia.
Qed.


(** ** Beat-time gaps and the BPM formula *)

Section BpmFormula.
Local Open Scope Q_scope.

Lemma totalInterval_loop : forall (bs : list Q) k, (k < length bs)%nat ->
  fold_left (fun acc i => acc + (nth i bs 0 - nth (i - 1) bs 0))%Q (seq 1 k) 0%Q
  == nth k bs 0 - nth 0 bs 0.
Proof.
  intros bs k; induction k as [|k IH]; intros Hk.
  - cbn [seq fold_left]. ring.
  - rewrite seq_S, fold_left_app. cbn [fold_left]. rewrite IH by lia.
    replace (1 + k)%nat with (S k) by lia. replace (S k - 1)%nat with k by lia. ring.
Qed.

Lemma last_nth_Q : forall (bs : list Q) d, bs <> [] -> last bs d = nth (length bs - 1) bs d.
Proof.
  intros bs d; induction bs as [|x t IH]; intros H; [contradiction|].
  destruct t as [|y u]; [reflexivity|].
  change (last (x :: y :: u) d) with (last (y :: u) d). rewrite IH by discriminate.
  simpl. rewrite Nat.sub_0_r. reflexivity.
Qed.

(** The summed intervals telescope to [last - first]. *)
Lemma totalInterval_eq : forall bs, bs <> [] -> totalInterval bs == last bs 0 - hd 0 bs.
Proof.
  intros bs H. unfold totalInterval. rewrite totalInterval_loop.
  - rewrite last_nth_Q by exact H. destruct bs; [contradiction | reflexivity].
  - destruct bs; [contradiction | simpl; lia].
Qed.

Lemma sum_gaps : forall b t, fold_right Qplus 0 (gaps (b :: t)) == last (b :: t) 0 - b.
Proof.
  intros b t; revert b; induction t as [|c u IH]; intros b.
  - simpl. ring.
  - change (gaps (b :: c :: u)) with ((c - b)%Q :: gaps (c :: u)).
    change (last (b :: c :: u) 0) with (last (c :: u) 0).
    cbn [fold_right]. rewrite IH. ring.
Qed.

Lemma length_gaps_cons : forall t b, length (gaps (b :: t)) = length t.
Proof.
  induction t as [|c u IH]; intros b; [reflexivity|].
  change (gaps (b :: c :: u)) with ((c - b)%Q :: gaps (c :: u)).
  cbn [length]. rewrite IH. reflexivity.
Qed.

Lemma length_gaps : forall bs, length (gaps bs) = (length bs - 1)%nat.
Proof.
  intros [|b t]; [reflexivity|]. rewrite length_gaps_cons. simpl. lia.
Qed.

Lemma bpmOf_mean_gap : forall bs, (2 <= length bs)%nat ->
  bpmOf bs == 60 / mean (gaps bs) /\
  bpmOf bs == 60 * inject_Z (Z.of_nat (length bs - 1)%nat) / (last bs 0 - hd 0 bs).
Proof.
  intros bs H. destruct bs as [|b t]; [simpl in H; lia|].
  unfold bpmOf, mean. rewrite totalInterval_eq by discriminate.
  rewrite sum_gaps, length_gaps. simpl hd. split; [reflexivity|].
  unfold Qdiv. rewrite Qinv_mult_distr, Qinv_involutive. ring.
Qed.

End BpmFormula.

Section FinalizeProps.

Variable DFState : Type.
Variable calculateBeatPeriod : Z -> Z -> list Q -> nat -> Q -> bool -> list Z.
Variable calculateBeats : Z -> Z -> list Q -> list Z -> Q -> Q -> list Q.
Variable DownBeat_getBufferedAudio : Z -> nat -> Z -> Z -> list (list Q) -> list Q.
Variable DownBeat_findDownBeats :
  Z -> nat -> Z -> Z -> list (list Q) -> list Q -> list Q -> list Z * list Q.
Variable Segmenter_getWindowsize : SegPrim.ClusterMeltSegmenterParams -> Z -> Z.
Variable Segmenter_getHopsize : SegPrim.ClusterMeltSegmenterParams -> Z -> Z.
Variable Segmenter_segment :
  SegPrim.ClusterMeltSegmenterParams -> Z -> list (list Q) -> Z -> SegPrim.Segmentation.
Variable sort_cues : list CuePoint -> list CuePoint.

Local Abbreviation finalize :=
  (analyzer_finalize DFState calculateBeatPeriod calculateBeats DownBeat_getBufferedAudio
     DownBeat_findDownBeats Segmenter_getWindowsize Segmenter_getHopsize Segmenter_segment
     sort_cues).

Local Abbreviation trackerDF a := (trimmedDF (detectionResults DFState a)
                                 (nonZeroCount (detectionResults DFState a))).
Local Abbreviation trackerBP a :=
  (calculateBeatPeriod (sampleRate DFState a) (stepSizeFrames DFState a) (trackerDF a)
     (length (trackerDF a) / 128 + 1) (effInputTempo (config DFState a))
     (negb (constrain_tempo (config DFState a) =? 0))).
Local Abbreviation trackerBeats a :=
  (calculateBeats (sampleRate DFState a) (stepSizeFrames DFState a) (trackerDF a) (trackerBP a)
     (effAlpha (config DFState a)) (effTightness (config DFState a))).

(** Once at least 4 DF values exist and some survive the trim, the tempo
    tracker runs on the trimmed sequence and the beats, BPM and error of the
    result are those of lines 444-476. *)
Lemma finalize_tempo_stage : forall a seg,
  (4 <= length (detectionResults DFState a))%nat ->
  (2 < nonZeroCount (detectionResults DFState a))%nat ->
  beat_periods (finalize a seg) = trackerBP a /\
  beats (finalize a seg) =
    map (beatTime (stepSizeFrames DFState a) (sampleRate DFState a)) (trackerBeats a) /\
  bpm (finalize a seg) =
    (if (2 <=? length (trackerBeats a))%nat
     then bpmOf (map (beatTime (stepSizeFrames DFState a) (sampleRate DFState a)) (trackerBeats a))
     else 0%Q) /\
  error (finalize a seg) =
    (match trackerBeats a with [] => Some "No beats detected"%string | _ => None end).
Proof.
  intros a seg H4 Hnz. unfold analyzer_finalize.
  replace (length (detectionResults DFState a) <? 4)%nat with false
    by (symmetry; apply Nat.ltb_ge; lia).
  replace (nonZeroCount (detectionResults DFState a) <=? 2)%nat with false
    by (symmetry; apply Nat.leb_gt; lia).
  destruct (trackerBeats a) as [|b bs] eqn:E; [repeat split|].
  destruct (downbeatStage DFState DownBeat_getBufferedAudio DownBeat_findDownBeats a (b :: bs)).
  destruct (segmentationStage DFState Segmenter_getWindowsize Segmenter_getHopsize
              Segmenter_segment a seg).
  repeat split.
Qed.

(** C5: with fewer than 4 raw DF values the result carries the "Not enough
    audio data" error and no beats, downbeats, segments or cue points. *)
Theorem finalize_not_enough_data : forall a seg,
  (length (detectionResults DFState a) < 4)%nat ->
  error (finalize a seg) = Some "Not enough audio data for beat detection"%string /\
  beats (finalize a seg) = [] /\ bpm (finalize a seg) = 0%Q /\
  downbeats (finalize a seg) = [] /\ segments (finalize a seg) = [] /\
  cue_points (finalize a seg) = [].
Proof.
  intros a seg H. unfold analyzer_finalize. apply Nat.ltb_lt in H. rewrite H.
  repeat split.
Qed.

(** C3 (amended): the trailing-silence loop runs over the whole DF sequence
    and keeps [nz] values; the tracker's input drops the first 2 of them.
    With at least 4 raw values: if [nz <= 2] (nothing left after the trim)
    the stage fails with "No valid detection results" and no beats, beat
    periods or cue points are produced; otherwise the tempo tracker is run
    on exactly the trimmed sequence, however short (at least 1 value), and
    this stage sets no error. *)
Theorem finalize_trimming : forall a seg,
  (4 <= length (detectionResults DFState a))%nat ->
  let dr := detectionResults DFState a in
  let nz := nonZeroCount dr in
  trimmedDF dr nz = firstn (nz - 2) (skipn 2 dr) /\
  (forall i, (nz <= i < length dr)%nat -> (nth i dr 0 <= 0)%Q) /\
  (nz = O \/ ~ (nth (nz - 1) dr 0 <= 0)%Q) /\
  ((nz <= 2)%nat ->
     error (finalize a seg) = Some "No valid detection results"%string /\
     beats (finalize a seg) = [] /\ beat_periods (finalize a seg) = [] /\
     cue_points (finalize a seg) = []) /\
  ((2 < nz)%nat ->
     (1 <= length (trimmedDF dr nz))%nat /\
     beat_periods (finalize a seg) = trackerBP a /\
     beats (finalize a seg) =
       map (beatTime (stepSizeFrames DFState a) (sampleRate DFState a)) (trackerBeats a) /\
     (error (finalize a seg) = None \/
      error (finalize a seg) = Some "No beats detected"%string)).
Proof.
  intros a seg H4 dr nz.
  destruct (nonZeroCount_spec dr) as [Hle [Htail Hlast]].
  split; [apply trimmedDF_eq|]. split; [exact Htail|]. split; [exact Hlast|]. split.
  - intros Hnz. unfold analyzer_finalize.
    replace (length (detectionResults DFState a) <? 4)%nat with false
      by (symmetry; apply Nat.ltb_ge; lia).
    fold dr nz. replace (nz <=? 2)%nat with true by (symmetry; apply Nat.leb_le; lia).
    repeat split.
  - intros Hnz. destruct (finalize_tempo_stage a seg H4 Hnz) as [Hbp [Hb [_ He]]].
    split; [unfold trimmedDF; rewrite length_map, length_seq; lia|].
    split; [exact Hbp|]. split; [exact Hb|].
    rewrite He. destruct (trackerBeats a); [right|left]; reflexivity.
Qed.


(** Every result of [analyzer_finalize] is either an early error result, or
    the result of a run through all stages. *)
Lemma finalize_shape : forall a seg,
  let r := finalize a seg in
  (error r <> None /\ beats r = [] /\ bpm r = 0%Q /\ downbeats r = [] /\
   beat_spectral_diff r = [] /\ segments r = [] /\ cue_points r = []) \/
  ((4 <= length (detectionResults DFState a))%nat /\
   (2 < nonZeroCount (detectionResults DFState a))%nat /\
   trackerBeats a <> [] /\ error r = None /\
   beats r = map (beatTime (stepSizeFrames DFState a) (sampleRate DFState a)) (trackerBeats a) /\
   bpm r = (if (2 <=? length (trackerBeats a))%nat then bpmOf (beats r) else 0%Q) /\
   downbeatStage DFState DownBeat_getBufferedAudio DownBeat_findDownBeats a (trackerBeats a)
     = (downbeats r, beat_spectral_diff r) /\
   segmentationStage DFState Segmenter_getWindowsize Segmenter_getHopsize Segmenter_segment a seg
     = (segments r, num_segment_types r) /\
   cue_points r = sort_cues (unsortedCues (beats r) (downbeats r) (segments r))).
Proof.
  intros a seg r. subst r. unfold analyzer_finalize.
  destruct (length (detectionResults DFState a) <? 4)%nat eqn:E4.
  { left. repeat split. discriminate. }
  destruct (nonZeroCount (detectionResults DFState a) <=? 2)%nat eqn:E2.
  { left. repeat split. discriminate. }
  apply Nat.ltb_ge in E4. apply Nat.leb_gt in E2.
  destruct (trackerBeats a) as [|b bs] eqn:E.
  { left. repeat split. discriminate. }
  destruct (downbeatStage DFState DownBeat_getBufferedAudio DownBeat_findDownBeats a (b :: bs))
    as [dbs bsd] eqn:Ed.
  destruct (segmentationStage DFState Segmenter_getWindowsize Segmenter_getHopsize
              Segmenter_segment a seg) as [segs nst] eqn:Es.
  right. simpl. repeat split; auto. discriminate.
Qed.

Lemma finalize_bpm_beats : forall a seg,
  bpm (finalize a seg) =
    (if (2 <=? length (beats (finalize a seg)))%nat then bpmOf (beats (finalize a seg)) else 0%Q).
Proof.
  intros a seg. destruct (finalize_shape a seg) as [[_ [Hb [Hbpm _]]] | [_ [_ [_ [_ [Hb [Hbpm _]]]]]]].
  - rewrite Hb, Hbpm. reflexivity.
  - rewrite Hbpm, Hb, length_map. reflexivity.
Qed.

(** C4: with at least 2 beats the BPM is 60 over the mean gap between
    consecutive beat times, equivalently [60 (n - 1) / (last - first)];
    with fewer it is the [calloc] default 0. *)
Theorem finalize_bpm_mean_gap : forall a seg,
  let r := finalize a seg in
  ((2 <= length (beats r))%nat ->
     (bpm r == 60 / mean (gaps (beats r)))%Q /\
     (bpm r == 60 * inject_Z (Z.of_nat (length (beats r) - 1)%nat) /
                (last (beats r) 0 - hd 0 (beats r)))%Q) /\
  ((length (beats r) < 2)%nat -> bpm r = 0%Q).
Proof.
  intros a seg r. subst r. rewrite finalize_bpm_beats.
  set (bs := beats (finalize a seg)). split.
  - intros H2. replace (2 <=? length bs)%nat with true by (symmetry; apply Nat.leb_le; exact H2).
    apply bpmOf_mean_gap. exact H2.
  - intros H2. replace (2 <=? length bs)%nat with false by (symmetry; apply Nat.leb_gt; exact H2).
    reflexivity.
Qed.

(** C7: when fewer than 4 beats were detected or no audio was kept, the
    downbeat fields stay empty and the stage sets no error: a result with
    beats keeps them, with its BPM, and [error = NULL]. *)
Theorem finalize_downbeat_skipped : forall a seg,
  let r := finalize a seg in
  ((length (beats r) < 4)%nat \/ audioBuffer DFState a = []) ->
  downbeats r = [] /\ beat_spectral_diff r = [] /\
  (beats r <> [] ->
     error r = None /\
     beats r = map (beatTime (stepSizeFrames DFState a) (sampleRate DFState a)) (trackerBeats a) /\
     bpm r = (if (2 <=? length (beats r))%nat then bpmOf (beats r) else 0%Q)).
Proof.
  intros a seg r H. subst r. rewrite <- finalize_bpm_beats.
  destruct (finalize_shape a seg)
    as [[He [Hb [_ [Hd [Hs _]]]]] | [_ [_ [_ [He [Hb [_ [Hd _]]]]]]]].
  - rewrite Hd, Hs, Hb. split; [reflexivity|]. split; [reflexivity|]. intros Hne. contradiction.
  - revert Hd. unfold downbeatStage.
    replace ((4 <=? length (trackerBeats a))%nat && negb (length (audioBuffer DFState a) =? 0)%nat)
      with false.
    + intros Hd. injection Hd as <- <-. repeat split; auto.
    + destruct H as [H | H].
      * rewrite Hb, length_map in H. apply Nat.leb_gt in H. rewrite H. reflexivity.
      * rewrite H. rewrite andb_false_r. reflexivity.
Qed.

(** C1 (amended): with a [sort_cues] meeting the contract of [std::sort]
    (a permutation, ascending for [a.time < b.time]), the cue points of
    every result are ascending by time and are a permutation of the phrase
    cues followed by the section cues.  [std::sort] is not stable, so
    nothing is said about the order of cues with equal times. *)
Theorem finalize_cues_sorted :
  (forall l, std_sort_contract l (sort_cues l)) ->
  forall a seg,
  let r := finalize a seg in
  (forall i j, (i < j < length (cue_points r))%nat ->
     (time (nth i (cue_points r) cue0) <= time (nth j (cue_points r) cue0))%Q) /\
  Permutation (unsortedCues (beats r) (downbeats r) (segments r)) (cue_points r).
Proof.
  intros Hsort a seg r. subst r.
  destruct (finalize_shape a seg)
    as [[_ [Hb [_ [Hd [_ [Hs Hc]]]]]] | [_ [_ [_ [_ [_ [_ [_ [_ Hc]]]]]]]]].
  - rewrite Hc, Hb, Hd, Hs. split; [simpl; intros; lia | constructor].
  - rewrite Hc. destruct (Hsort (unsortedCues (beats (finalize a seg))
                                   (downbeats (finalize a seg)) (segments (finalize a seg))))
      as [Hp Hord].
    split; [|exact Hp].
    intros i j Hij. specialize (Hord i j Hij). unfold cue_less in Hord.
    apply negb_false_iff, Qle_bool_iff in Hord. exact Hord.
Qed.

(** C8 (code bug): the segmentation configuration's [num_clusters = 0] is
    defaulted to 10 in the segmenter parameters, but the segmentation is
    computed by [segmenter.segment(segCfg.num_clusters)], i.e. with 0. *)
Theorem segmentation_gets_zero_clusters : forall a,
  audioBuffer DFState a <> [] ->
  SegPrim.nclusters (segmenterParams (getEffectiveSegConfig (Some (segCfgWithClusters 0))))
    = kDefaultSegNumClusters /\
  exists frames,
    segmentationStage DFState Segmenter_getWindowsize Segmenter_getHopsize Segmenter_segment a
      (Some (segCfgWithClusters 0)) =
    let sgm := Segmenter_segment (segmenterParams (getEffectiveSegConfig (Some (segCfgWithClusters 0))))
                 (sampleRate DFState a) frames 0 in
    (segmentsInSeconds (sampleRate DFState a) sgm, SegPrim.nsegtypes sgm).
Proof.
  intros a Ha. split; [reflexivity|].
  eexists. unfold segmentationStage.
  destruct (length (audioBuffer DFState a) =? 0)%nat eqn:E.
  - apply Nat.eqb_eq, length_zero_iff_nil in E. contradiction.
  - reflexivity.
Qed.

(** C10: with the default configuration and the legacy step size, the
    streaming [analyzer_finalize] and the legacy [analyzer_analyze_file]
    agree on the error, the beats and the BPM for every DF sequence. *)
Theorem finalize_matches_legacy : forall a seg frames,
  config DFState a = analyzer_default_config ->
  stepSizeFrames DFState a = Legacy.stepSizeFramesOf (sampleRate DFState a) ->
  let r := finalize a seg in
  let l := Legacy.analyze_from_df calculateBeatPeriod calculateBeats (sampleRate DFState a)
             frames (detectionResults DFState a) in
  error r = Legacy.error l /\ beats r = Legacy.beats l /\ bpm r = Legacy.bpm l.
Proof.
  intros a seg frames Hcfg Hstep r l. subst r l.
  unfold analyzer_finalize, Legacy.analyze_from_df.
  rewrite Hcfg, Hstep.
  destruct (length (detectionResults DFState a) <? 4)%nat; [repeat split|].
  destruct (nonZeroCount (detectionResults DFState a) <=? 2)%nat; [repeat split|].
  cbv zeta.
  change (effInputTempo analyzer_default_config) with Legacy.defaultInputTempo.
  change (negb (constrain_tempo analyzer_default_config =? 0)) with Legacy.defaultConstrainTempo.
  change (effAlpha analyzer_default_config) with Legacy.defaultAlpha.
  change (effTightness analyzer_default_config) with Legacy.defaultTightness.
  destruct (calculateBeats _ _ _ _ Legacy.defaultAlpha Legacy.defaultTightness) as [|b bs];
    [repeat split|].
  destruct (downbeatStage _ _ _ _ _). destruct (segmentationStage _ _ _ _ _ _).
  repeat split.
Qed.

End FinalizeProps.

(* ------------------------------------------------------------------------ *)
(** ** The streaming session: [analyzer_process] and [analyzer_get_df_count] *)

Lemma map_seq_shift : forall (A : Type) (f : nat -> A) m n,
  map f (seq n m) = map (fun i => f (n + i)%nat) (seq 0 m).
Proof.
  intros A f m; induction m as [|m IH]; intros n; [reflexivity|].
  rewrite !seq_S, !map_app, IH. reflexivity.
Qed.

Lemma convertToDouble_app : forall xs ys n m, length xs = n ->
  convertToDouble (xs ++ ys) (n + m) = convertToDouble xs n ++ convertToDouble ys m.
Proof.
  intros xs ys n m Hn. unfold convertToDouble. rewrite seq_app, map_app, Nat.add_0_l. f_equal.
  - apply map_ext_in. intros i Hi. apply in_seq in Hi. apply app_nth1. lia.
  - rewrite map_seq_shift. apply map_ext. intros i. rewrite app_nth2 by lia. f_equal. lia.
Qed.

Lemma downmixToMono_app : forall xs ys n m, length xs = (2 * n)%nat ->
  downmixToMono (xs ++ ys) (n + m) = downmixToMono xs n ++ downmixToMono ys m.
Proof.
  intros xs ys n m Hn. unfold downmixToMono. rewrite seq_app, map_app, Nat.add_0_l. f_equal.
  - apply map_ext_in. intros i Hi. apply in_seq in Hi. rewrite !app_nth1 by lia. reflexivity.
  - rewrite map_seq_shift. apply map_ext. intros i. rewrite !app_nth2 by lia. rewrite Hn.
    replace (2 * (n + i) - 2 * n)%nat with (2 * i)%nat by lia.
    replace (2 * (n + i) + 1 - 2 * n)%nat with (2 * i + 1)%nat by lia. reflexivity.
Qed.

Section StreamProps.

Variable DFState : Type.
Variable DetectionFunction_new : DFConfig -> DFState.
Variable processTimeDomain : DFState -> list Q -> Q * DFState.

Local Abbreviation ps := (process_sample DFState processTimeDomain).
Local Abbreviation process := (analyzer_process DFState processTimeDomain).
Local Abbreviation dfrun := (df_run DFState processTimeDomain).

(** The sample loop of [analyzer_process] feeds the overlap buffer and calls
    [processTimeDomain] on each emitted window, in order. *)
Lemma fold_process_run : forall xs a,
  fold_left ps xs a =
  let r := acc_run (Z.to_nat (windowSize DFState a)) (Z.to_nat (stepSizeFrames DFState a))
                   (overlap DFState a) xs in
  let d := dfrun (detectionFunction DFState a) (snd r) in
  {| sampleRate := sampleRate DFState a;
     channels := channels DFState a;
     config := config DFState a;
     stepSizeFrames := stepSizeFrames DFState a;
     windowSize := windowSize DFState a;
     detectionFunction := snd d;
     detectionResults := detectionResults DFState a ++ fst d;
     overlap := fst r;
     totalFramesProcessed := totalFramesProcessed DFState a + Z.of_nat (length xs);
     audioBuffer := audioBuffer DFState a |}.
Proof.
  induction xs as [|x t IH]; intros a.
  - destruct a; simpl. rewrite app_nil_r, Z.add_0_r. reflexivity.
  - cbn [fold_left]. rewrite IH. unfold process_sample. cbn [acc_run].
    destruct (acc_push (Z.to_nat (windowSize DFState a)) (Z.to_nat (stepSizeFrames DFState a))
                (overlap DFState a) x) as [a1 [w|]].
    + destruct (processTimeDomain (detectionFunction DFState a) w) as [v st1] eqn:Ep.
      simpl. destruct (acc_run _ _ a1 t) as [a2 ws]. simpl. rewrite Ep.
      destruct (dfrun st1 ws) as [vs st2]. simpl. rewrite <- app_assoc. f_equal. lia.
    + simpl. destruct (acc_run _ _ a1 t) as [a2 ws]. simpl. f_equal. lia.
Qed.

Lemma fold_process_with_audio : forall xs a mono,
  fold_left ps xs (with_audio DFState a mono) = with_audio DFState (fold_left ps xs a) mono.
Proof. intros. rewrite !fold_process_run. reflexivity. Qed.

Lemma with_audio_app : forall a u v,
  with_audio DFState (with_audio DFState a u) v = with_audio DFState a (u ++ v).
Proof. intros. unfold with_audio. simpl. rewrite app_assoc. reflexivity. Qed.

Lemma process_state : forall a xs n,
  snd (process a xs n) =
  if (n =? 0)%nat then a
  else let mono := if channels DFState a =? 1 then convertToDouble xs n
                   else downmixToMono xs n in
       with_audio DFState (fold_left ps mono a) mono.
Proof.
  intros a xs n. unfold analyzer_process. destruct (n =? 0)%nat; [reflexivity|].
  simpl. apply fold_process_with_audio.
Qed.

Lemma process_fields : forall a xs n,
  let a' := snd (process a xs n) in
  sampleRate DFState a' = sampleRate DFState a /\ channels DFState a' = channels DFState a /\
  config DFState a' = config DFState a /\
  stepSizeFrames DFState a' = stepSizeFrames DFState a /\
  windowSize DFState a' = windowSize DFState a.
Proof.
  intros a xs n a'. subst a'. rewrite process_state.
  destruct (n =? 0)%nat; [repeat split|]. cbv zeta. unfold with_audio at 1.
  rewrite fold_process_run. repeat split.
Qed.

Lemma mono_app : forall (c : Z) (xs ys : list Q) (n m : nat),
  length xs = ((if (c =? 1)%Z then 1 else 2) * n)%nat ->
  (if c =? 1 then convertToDouble (xs ++ ys) (n + m) else downmixToMono (xs ++ ys) (n + m)) =
  (if c =? 1 then convertToDouble xs n else downmixToMono xs n) ++
  (if c =? 1 then convertToDouble ys m else downmixToMono ys m).
Proof.
  intros c xs ys n m H. destruct (c =? 1).
  - apply convertToDouble_app. lia.
  - apply downmixToMono_app. exact H.
Qed.

Lemma process_compose : forall a xs ys n m,
  length xs = ((if (channels DFState a =? 1)%Z then 1 else 2) * n)%nat ->
  snd (process (snd (process a xs n)) ys m) = snd (process a (xs ++ ys) (n + m)).
Proof.
  intros a xs ys n m Hl.
  destruct (process_fields a xs n) as [_ [Hch _]].
  destruct (Nat.eq_dec n 0) as [->|Hn].
  - assert (xs = []) as -> by (apply length_zero_iff_nil; lia). reflexivity.
  - rewrite (process_state (snd (process a xs n))), Hch.
    rewrite !process_state.
    replace (n =? 0)%nat with false by (symmetry; apply Nat.eqb_neq; exact Hn).
    replace (n + m =? 0)%nat with false by (symmetry; apply Nat.eqb_neq; lia).
    cbv zeta. rewrite (mono_app _ xs ys n m Hl).
    destruct (Nat.eq_dec m 0) as [->|Hm].
    + simpl Nat.eqb. replace (if channels DFState a =? 1 then convertToDouble ys 0
                              else downmixToMono ys 0) with (@nil Q)
        by (destruct (channels DFState a =? 1); reflexivity).
      rewrite !app_nil_r. reflexivity.
    + replace (m =? 0)%nat with false by (symmetry; apply Nat.eqb_neq; exact Hm).
      rewrite fold_process_with_audio, with_audio_app, fold_left_app. reflexivity.
Qed.

(** X1: splitting a stream between two [analyzer_process] calls does not
    change the session: when the first call's samples hold exactly its
    [n] frames, processing [xs] then [ys] leaves the same state as one call
    on [xs ++ ys] with [n + m] frames (also when [n] or [m] is 0). *)
Theorem analyzer_process_compose : forall a xs ys n m,
  length xs = ((if (channels DFState a =? 1)%Z then 1 else 2) * n)%nat ->
  snd (process (snd (process a xs n)) ys m) = snd (process a (xs ++ ys) (n + m)).
Proof. exact process_compose. Qed.




Lemma mono_length : forall (c : Z) xs n,
  length (if c =? 1 then convertToDouble xs n else downmixToMono xs n) = n.
Proof.
  intros c xs n. destruct (c =? 1); unfold convertToDouble, downmixToMono;
    rewrite length_map, length_seq; reflexivity.
Qed.

(** X2: [analyzer_process] rejects 0 frames with [-1] and changes nothing;
    otherwise it returns 0, appends the [n] mono samples to the audio
    history, adds [n] to the frame count, only appends DF values, and keeps
    the sample rate, channel count, configuration and sizes. *)
Theorem analyzer_process_bookkeeping : forall a samples n,
  let res := process a samples n in
  let mono := if channels DFState a =? 1 then convertToDouble samples n
              else downmixToMono samples n in
  ((n = 0)%nat -> res = (-1, a)) /\
  ((n <> 0)%nat ->
     fst res = 0 /\ length mono = n /\
     audioBuffer DFState (snd res) = audioBuffer DFState a ++ mono /\
     totalFramesProcessed DFState (snd res) = totalFramesProcessed DFState a + Z.of_nat n /\
     (exists vs, detectionResults DFState (snd res) = detectionResults DFState a ++ vs) /\
     sampleRate DFState (snd res) = sampleRate DFState a /\
     channels DFState (snd res) = channels DFState a /\
     config DFState (snd res) = config DFState a /\
     stepSizeFrames DFState (snd res) = stepSizeFrames DFState a /\
     windowSize DFState (snd res) = windowSize DFState a).
Proof.
  intros a samples n res mono. subst res mono. split.
  - intros ->. reflexivity.
  - intros Hn. pose proof (mono_length (channels DFState a) samples n) as Hl.
    unfold analyzer_process.
    replace (n =? 0)%nat with false by (symmetry; apply Nat.eqb_neq; exact Hn).
    cbn [fst snd]. rewrite fold_process_run. cbn. rewrite Hl.
    repeat split. eexists. reflexivity.
Qed.

Lemma df_run_length : forall st ws, length (fst (dfrun st ws)) = length ws.
Proof.
  intros st ws; revert st; induction ws as [|w ws IH]; intros st; [reflexivity|].
  simpl. destruct (processTimeDomain st w) as [v st1]. specialize (IH st1).
  destruct (dfrun st1 ws) as [vs st2]. simpl in *. f_equal. exact IH.
Qed.


Lemma window_count : forall (W s : nat) (Hs : (0 < s < W)%nat) (xs : list Q),
  length (snd (acc_run W s (acc_init W) xs)) =
    (if (length xs <? W)%nat then O else ((length xs - W) / s + 1)%nat) /\
  snd (acc_run W s (acc_init W) xs) =
    map (fun k => firstn W (skipn (k * s) xs)) (seq 0 (length (snd (acc_run W s (acc_init W) xs)))).
Proof.
  intros W s Hs xs.
  destruct (acc_run_spec W s Hs xs [] O (acc_init W) (acc_inv_init W s Hs)) as [m [Hws Hinv]].
  simpl in Hws, Hinv. rewrite Hws, length_map, length_seq. split; [|reflexivity].
  pose proof (acc_inv_pos W s Hs _ _ _ Hinv) as Hpos. destruct Hinv as [_ [Hp [Hms [_ Hov]]]].
  destruct m as [|m].
  - simpl in Hpos. replace (length xs <? W)%nat with true by (symmetry; apply Nat.ltb_lt; lia).
    reflexivity.
  - destruct Hov as [Hov|Hov]; [discriminate|].
    simpl in Hpos, Hms. remember (m * s)%nat as ms.
    replace (length xs <? W)%nat with false by (symmetry; apply Nat.ltb_ge; lia).
    assert (Hd : ((length xs - W) / s)%nat = m).
    { symmetry. apply Nat.div_unique with (r := (length xs - W - ms)%nat); lia. }
    lia.
Qed.



(** X3: after a created session with [0 < step < window] has processed a
    stream, [analyzer_get_df_count] is [0] when fewer than [window] samples
    were fed and [(samples - window) / step + 1] otherwise, and the DF
    values are [processTimeDomain] of the windows of [window] samples
    starting every [step] samples of the stream, in order. *)
Theorem analyzer_process_df_windows : forall sr ch cfg a samples n,
  analyzer_create DFState DetectionFunction_new sr ch cfg = Some a ->
  0 < stepSizeFrames DFState a < windowSize DFState a ->
  let a' := snd (process a samples n) in
  let W := Z.to_nat (windowSize DFState a) in
  let s := Z.to_nat (stepSizeFrames DFState a) in
  let audio := audioBuffer DFState a' in
  let count := analyzer_get_df_count DFState (Some a') in
  count = (if (length audio <? W)%nat then O else ((length audio - W) / s + 1)%nat) /\
  detectionResults DFState a' =
    fst (dfrun (detectionFunction DFState a)
               (map (fun k => firstn W (skipn (k * s) audio)) (seq 0 count))).
Proof.
  intros sr ch cfg a samples n Hc Hsw a' W s audio count.
  assert (Hs : (0 < s < W)%nat) by (subst s W; lia).
  unfold analyzer_create in Hc. destruct (create_guard sr ch); [discriminate|].
  injection Hc as Ha.
  assert (Hab : audioBuffer DFState a = []) by (rewrite <- Ha; reflexivity).
  assert (Hdr : detectionResults DFState a = []) by (rewrite <- Ha; reflexivity).
  assert (Hov : overlap DFState a = acc_init (Z.to_nat (windowSize DFState a)))
    by (rewrite <- Ha; reflexivity). fold W in Hov.
  subst count audio a'. unfold analyzer_get_df_count. rewrite process_state.
  destruct (n =? 0)%nat.
  - rewrite Hab, Hdr. simpl. replace (0 <? W)%nat with true by (symmetry; apply Nat.ltb_lt; lia).
    split; reflexivity.
  - cbv zeta. rewrite fold_process_run. cbn [with_audio audioBuffer detectionResults overlap
      windowSize stepSizeFrames detectionFunction]. fold W s. rewrite Hab, Hdr, Hov.
    simpl app.
    set (mono := if channels DFState a =? 1 then convertToDouble samples n
                 else downmixToMono samples n).
    destruct (window_count W s Hs mono) as [Hcnt Hwin].
    rewrite df_run_length, Hcnt. split; [reflexivity|].
    rewrite Hwin at 1. rewrite Hcnt. reflexivity.
Qed.

End StreamProps.


(** ** The frame loops of the downbeat and segmentation stages *)

Lemma strideFrames_from : forall (audio : list Q) len hop, (0 < hop)%nat ->
  forall fuel i,
  let cnt := if (length audio <? i + len)%nat then O
             else ((length audio - i - len) / hop + 1)%nat in
  (cnt <= fuel)%nat ->
  strideFrames audio len hop fuel i =
    map (fun k => firstn len (skipn (i + k * hop) audio)) (seq 0 cnt).
Proof.
  intros audio len hop Hhop fuel; induction fuel as [|f IH]; intros i cnt Hf.
  - assert (cnt = O) as -> by lia. reflexivity.
  - cbn [strideFrames]. subst cnt.
    destruct (i + len <=? length audio)%nat eqn:E.
    + apply Nat.leb_le in E.
      replace (length audio <? i + len)%nat with false in * by (symmetry; apply Nat.ltb_ge; lia).
      set (c' := if (length audio <? i + hop + len)%nat then O
                 else ((length audio - (i + hop) - len) / hop + 1)%nat).
      assert (Hc : ((length audio - i - len) / hop + 1)%nat = S c').
      { subst c'. destruct (length audio <? i + hop + len)%nat eqn:E2.
        - apply Nat.ltb_lt in E2. rewrite Nat.div_small by lia. reflexivity.
        - apply Nat.ltb_ge in E2.
          replace (length audio - i - len)%nat with ((length audio - (i + hop) - len) + 1 * hop)%nat
            by lia.
          rewrite Nat.div_add by lia. lia. }
      rewrite Hc in *. rewrite (IH (i + hop)%nat) by (fold c'; lia). fold c'.
      cbn [seq map]. rewrite Nat.add_0_r. f_equal.
      rewrite <- seq_shift, map_map. apply map_ext. intros k. f_equal. f_equal. lia.
    + apply Nat.leb_gt in E.
      replace (length audio <? i + len)%nat with true by (symmetry; apply Nat.ltb_lt; lia).
      reflexivity.
Qed.

(** X4: the frame loops of the downbeat and segmentation stages visit the
    frames of [len] samples starting every [hop] samples as long as a whole
    frame fits; every frame visited has [len] samples, and their number is
    [0] when the audio is shorter than [len], else [(samples - len) / hop + 1]. *)
Theorem strideFrames_frames : forall (audio : list Q) len hop,
  (0 < hop)%nat ->
  let frames := strideFrames audio len hop (S (length audio)) 0 in
  frames = map (fun k => firstn len (skipn (k * hop) audio))
               (seq 0 (if (length audio <? len)%nat then O
                       else ((length audio - len) / hop + 1)%nat)) /\
  Forall (fun fr => length fr = len) frames.
Proof.
  intros audio len hop Hhop frames.
  assert (Hcnt : ((if (length audio <? 0 + len)%nat then O
                   else ((length audio - 0 - len) / hop + 1)%nat) <= S (length audio))%nat).
  { destruct (length audio <? 0 + len)%nat; [lia|].
    assert (((length audio - 0 - len) / hop <= length audio - 0 - len)%nat).
    { apply Nat.Div0.div_le_upper_bound; nia. }
    lia. }
  pose proof (strideFrames_from audio len hop Hhop (S (length audio)) 0 Hcnt) as H.
  cbn zeta in H. simpl (0 + len)%nat in H. rewrite Nat.sub_0_r in H.
  subst frames. rewrite H. split; [reflexivity|].
  apply Forall_forall. intros fr Hin. apply in_map_iff in Hin as [k [<- Hk]].
  apply in_seq in Hk. rewrite length_firstn, length_skipn.
  destruct (length audio <? len)%nat eqn:E; [lia|]. apply Nat.ltb_ge in E.
  assert (Hk' : (k <= (length audio - len) / hop)%nat) by lia.
  assert ((hop * ((length audio - len) / hop) <= length audio - len)%nat)
    by apply Nat.Div0.mul_div_le.
  nia.
Qed.


(** ** More of [analyzer_finalize]: metadata, cue points, beat order *)

Lemma phraseCues_loop_in : forall bs dbs fuel i c,
  In c (phraseCues_loop bs dbs fuel i) ->
  type c = CUE_TYPE_PHRASE /\ confidence c = kPhraseConfidence /\ In (time c) bs.
Proof.
  intros bs dbs fuel; induction fuel as [|f IH]; intros i c H; simpl in H; [contradiction|].
  destruct (i <? length dbs)%nat; [|contradiction].
  destruct ((0 <=? nth i dbs 0) && (Z.to_nat (nth i dbs 0%Z) <? length bs)%nat) eqn:E.
  - destruct H as [<- | H]; [|exact (IH _ _ H)].
    apply andb_true_iff in E as [_ E]. apply Nat.ltb_lt in E.
    split; [reflexivity|]. split; [reflexivity|]. apply nth_In. exact E.
  - exact (IH _ _ H).
Qed.

Lemma phraseCues_loop_length : forall bs dbs fuel i,
  (length (phraseCues_loop bs dbs fuel i) <= (length dbs - i + 7) / 8)%nat.
Proof.
  intros bs dbs fuel; induction fuel as [|f IH]; intros i; cbn [phraseCues_loop length]; [lia|].
  destruct (i <? length dbs)%nat eqn:Ei; [|cbn [length]; lia].
  apply Nat.ltb_lt in Ei.
  assert (Hstep : (1 + (length dbs - (i + 8) + 7) / 8 <= (length dbs - i + 7) / 8)%nat).
  { destruct (Nat.le_gt_cases (i + 8) (length dbs)) as [Hd|Hd].
    - replace (length dbs - i + 7)%nat with ((length dbs - (i + 8) + 7) + 1 * 8)%nat by lia.
      rewrite Nat.div_add by lia. lia.
    - replace (length dbs - (i + 8) + 7)%nat with 7%nat by lia.
      change (7 / 8)%nat with O. rewrite Nat.add_0_r.
      apply (Nat.le_trans _ (8 / 8)); [reflexivity | apply Nat.Div0.div_le_mono; lia]. }
  specialize (IH (i + 8)%nat).
  destruct ((0 <=? nth i dbs 0) && (Z.to_nat (nth i dbs 0%Z) <? length bs)%nat);
    cbn [length]; lia.
Qed.

Lemma phraseCues_in : forall bs dbs c, In c (phraseCues bs dbs) ->
  type c = CUE_TYPE_PHRASE /\ confidence c = kPhraseConfidence /\ In (time c) bs.
Proof.
  intros bs dbs c. unfold phraseCues. destruct (0 <? length dbs)%nat; [|contradiction].
  apply phraseCues_loop_in.
Qed.

Lemma phraseCues_length : forall bs dbs,
  (length (phraseCues bs dbs) <= (length dbs + 7) / 8)%nat.
Proof.
  intros bs dbs. unfold phraseCues. destruct (0 <? length dbs)%nat; [|simpl; lia].
  pose proof (phraseCues_loop_length bs dbs (length dbs) 0). rewrite Nat.sub_0_r in H. exact H.
Qed.

Lemma Sorted_map_mono : forall (A B : Type) (R : A -> A -> Prop) (R' : B -> B -> Prop)
  (f : A -> B) l,
  (forall x y, R x y -> R' (f x) (f y)) -> Sorted R l -> Sorted R' (map f l).
Proof.
  intros A B R R' f l Hf Hs. induction Hs as [|x l Hs IH Hd]; simpl; constructor; [exact IH|].
  destruct Hd as [|y l' Hxy]; simpl; constructor. apply Hf. exact Hxy.
Qed.

Lemma beatTime_mono : forall step sr b1 b2, 0 < step -> 0 < sr -> (b1 < b2)%Q ->
  (beatTime step sr b1 < beatTime step sr b2)%Q.
Proof.
  intros step sr b1 b2 Hst Hsr Hb. unfold beatTime, Qdiv.
  assert (Hs : (0 < inject_Z step)%Q) by (unfold Qlt; simpl; lia).
  assert (Hr : (0 < / inject_Z sr)%Q) by (apply Qinv_lt_0_compat; unfold Qlt; simpl; lia).
  apply Qmult_lt_compat_r; [exact Hr|]. apply Qplus_lt_l.
  apply Qmult_lt_compat_r; [exact Hs|]. apply Qplus_lt_l. exact Hb.
Qed.

Lemma Sorted_Qlt_hd_last : forall bs, Sorted Qlt bs -> (2 <= length bs)%nat ->
  (hd 0%Q bs < last bs 0%Q)%Q.
Proof.
  intros bs Hs Hl. apply (Sorted_StronglySorted Qlt_trans) in Hs.
  destruct bs as [|b t]; [simpl in Hl; lia|].
  apply StronglySorted_inv in Hs as [_ Hf]. rewrite Forall_forall in Hf.
  destruct t as [|c u]; [simpl in Hl; lia|]. simpl hd.
  change (last (b :: c :: u) 0%Q) with (last (c :: u) 0%Q).
  apply Hf. rewrite last_nth_Q by discriminate. apply nth_In. simpl. lia.
Qed.

Lemma bpmOf_pos : forall bs, Sorted Qlt bs -> (2 <= length bs)%nat -> (0 < bpmOf bs)%Q.
Proof.
  intros bs Hs Hl. pose proof (Sorted_Qlt_hd_last bs Hs Hl) as Hlt.
  assert (Ht : (0 < totalInterval bs)%Q).
  { rewrite totalInterval_eq by (intros ->; simpl in Hl; lia).
    apply Qlt_minus_iff in Hlt. exact Hlt. }
  assert (Hn : (0 < inject_Z (Z.of_nat (length bs - 1)))%Q) by (unfold Qlt; simpl; lia).
  unfold bpmOf, Qdiv. apply Qmult_lt_0_compat; [reflexivity|].
  apply Qinv_lt_0_compat. apply Qmult_lt_0_compat; [exact Ht|].
  apply Qinv_lt_0_compat. exact Hn.
Qed.

Section FinalizeMore.

Variable DFState : Type.
Variable calculateBeatPeriod : Z -> Z -> list Q -> nat -> Q -> bool -> list Z.
Variable calculateBeats : Z -> Z -> list Q -> list Z -> Q -> Q -> list Q.
Variable DownBeat_getBufferedAudio : Z -> nat -> Z -> Z -> list (list Q) -> list Q.
Variable DownBeat_findDownBeats :
  Z -> nat -> Z -> Z -> list (list Q) -> list Q -> list Q -> list Z * list Q.
Variable Segmenter_getWindowsize : SegPrim.ClusterMeltSegmenterParams -> Z -> Z.
Variable Segmenter_getHopsize : SegPrim.ClusterMeltSegmenterParams -> Z -> Z.
Variable Segmenter_segment :
  SegPrim.ClusterMeltSegmenterParams -> Z -> list (list Q) -> Z -> SegPrim.Segmentation.
Variable sort_cues : list CuePoint -> list CuePoint.

Local Abbreviation finalize :=
  (analyzer_finalize DFState calculateBeatPeriod calculateBeats DownBeat_getBufferedAudio
     DownBeat_findDownBeats Segmenter_getWindowsize Segmenter_getHopsize Segmenter_segment
     sort_cues).

(** X5: every result of [analyzer_finalize], error results included,
    reports the session's sample rate, step and window sizes, the frames
    processed and [duration = frames / sampleRate]; the raw DF sequence is
    returned whenever it has at least 4 values, and is empty otherwise. *)
Theorem finalize_metadata : forall a seg,
  let r := finalize a seg in
  sample_rate r = sampleRate DFState a /\
  step_size_frames r = stepSizeFrames DFState a /\
  window_size r = windowSize DFState a /\
  total_frames r = totalFramesProcessed DFState a /\
  duration r = (inject_Z (totalFramesProcessed DFState a) / inject_Z (sampleRate DFState a))%Q /\
  detection_function r =
    (if (length (detectionResults DFState a) <? 4)%nat then [] else detectionResults DFState a).
Proof.
  intros a seg r. subst r. unfold analyzer_finalize.
  destruct (length (detectionResults DFState a) <? 4)%nat; [repeat split|].
  destruct (nonZeroCount (detectionResults DFState a) <=? 2)%nat; [repeat split|].
  cbv zeta. destruct (calculateBeats _ _ _ _ _ _) as [|b bs]; [repeat split|].
  destruct (downbeatStage _ _ _ _ _). destruct (segmentationStage _ _ _ _ _ _).
  repeat split.
Qed.

Lemma finalize_error_cases : forall a seg,
  error (finalize a seg) = None \/
  error (finalize a seg) = Some "Not enough audio data for beat detection"%string \/
  error (finalize a seg) = Some "No valid detection results"%string \/
  error (finalize a seg) = Some "No beats detected"%string.
Proof.
  intros a seg. unfold analyzer_finalize.
  destruct (length (detectionResults DFState a) <? 4)%nat; [tauto|].
  destruct (nonZeroCount (detectionResults DFState a) <=? 2)%nat; [tauto|].
  cbv zeta. destruct (calculateBeats _ _ _ _ _ _) as [|b bs]; [tauto|].
  destruct (downbeatStage _ _ _ _ _). destruct (segmentationStage _ _ _ _ _ _).
  tauto.
Qed.

(** X6: with a [sort_cues] that permutes its input, every cue point is
    either a PHRASE cue (confidence 0.8) at one of the result's beat times
    or a SECTION cue (confidence 0.7) at the start of a result segment,
    with the segment's type; there are as many cues as phrase cues plus
    segments, at most one phrase cue per 8 downbeats (rounded up), and no
    segment at all without a segmentation configuration. *)
Theorem finalize_cue_sources :
  (forall l, Permutation l (sort_cues l)) ->
  forall a seg,
  let r := finalize a seg in
  (forall c, In c (cue_points r) ->
     (type c = CUE_TYPE_PHRASE /\ confidence c = kPhraseConfidence /\ In (time c) (beats r)) \/
     (exists sg, In sg (segments r) /\
        c = {| time := seg_start sg; type := CUE_TYPE_SECTION; type_index := seg_type sg;
               confidence := kSectionConfidence |})) /\
  length (cue_points r) = (length (phraseCues (beats r) (downbeats r)) + length (segments r))%nat /\
  (length (phraseCues (beats r) (downbeats r)) <= (length (downbeats r) + 7) / 8)%nat /\
  (seg = None -> segments r = []).
Proof.
  intros Hperm a seg r. subst r.
  split; [|split; [|split; [apply phraseCues_length|]]].
  - intros c Hc.
    destruct (finalize_shape DFState calculateBeatPeriod calculateBeats DownBeat_getBufferedAudio
                DownBeat_findDownBeats Segmenter_getWindowsize Segmenter_getHopsize
                Segmenter_segment sort_cues a seg)
      as [[_ [_ [_ [_ [_ [_ Hcp]]]]]] | [_ [_ [_ [_ [_ [_ [_ [_ Hcp]]]]]]]]];
      rewrite Hcp in Hc; [contradiction|].
    apply (Permutation_in _ (Permutation_sym (Hperm _))) in Hc.
    unfold unsortedCues in Hc. apply in_app_or in Hc as [Hc|Hc].
    + left. apply phraseCues_in in Hc. exact Hc.
    + right. unfold sectionCues in Hc. apply in_map_iff in Hc as [sg [<- Hsg]].
      exists sg. split; [exact Hsg | reflexivity].
  - destruct (finalize_shape DFState calculateBeatPeriod calculateBeats DownBeat_getBufferedAudio
                DownBeat_findDownBeats Segmenter_getWindowsize Segmenter_getHopsize
                Segmenter_segment sort_cues a seg)
      as [[_ [Hb [_ [Hd [_ [Hs Hcp]]]]]] | [_ [_ [_ [_ [_ [_ [_ [_ Hcp]]]]]]]]].
    + rewrite Hcp, Hb, Hd, Hs. reflexivity.
    + rewrite Hcp, <- (Permutation_length (Hperm _)). unfold unsortedCues, sectionCues.
      rewrite length_app, length_map. reflexivity.
  - intros ->.
    destruct (finalize_shape DFState calculateBeatPeriod calculateBeats DownBeat_getBufferedAudio
                DownBeat_findDownBeats Segmenter_getWindowsize Segmenter_getHopsize
                Segmenter_segment sort_cues a None)
      as [[_ [_ [_ [_ [_ [Hs _]]]]]] | [_ [_ [_ [_ [_ [_ [_ [Hs _]]]]]]]]]; [exact Hs|].
    simpl in Hs. congruence.
Qed.

(** X7: when the beat tracker returns strictly increasing positions and the
    step and sample rate are positive, the result's beat times are strictly
    increasing, and the BPM is positive as soon as there are 2 beats. *)
Theorem finalize_beats_increasing :
  (forall sr step df bp al ti, Sorted Qlt (calculateBeats sr step df bp al ti)) ->
  forall a seg,
  0 < stepSizeFrames DFState a -> 0 < sampleRate DFState a ->
  let r := finalize a seg in
  Sorted Qlt (beats r) /\ ((2 <= length (beats r))%nat -> (0 < bpm r)%Q).
Proof.
  intros Hsorted a seg Hst Hsr r. subst r.
  destruct (finalize_shape DFState calculateBeatPeriod calculateBeats DownBeat_getBufferedAudio
              DownBeat_findDownBeats Segmenter_getWindowsize Segmenter_getHopsize
              Segmenter_segment sort_cues a seg)
    as [[_ [Hb _]] | [_ [_ [_ [_ [Hb [Hbpm _]]]]]]].
  - rewrite Hb. split; [constructor | simpl; lia].
  - assert (Hs : Sorted Qlt (beats (finalize a seg))).
    { rewrite Hb. apply (Sorted_map_mono _ _ Qlt Qlt).
      - intros x y. apply beatTime_mono; assumption.
      - apply Hsorted. }
    split; [exact Hs|]. intros H2. rewrite Hbpm.
    replace (2 <=? length (calculateBeats _ _ _ _ _ _))%nat with true.
    + apply bpmOf_pos; assumption.
    + symmetry. apply Nat.leb_le. rewrite Hb, length_map in H2. exact H2.
Qed.

End FinalizeMore.


(** ** The whole-file API *)

Section FileProps.

Variable DFState : Type.
Variable DetectionFunction_new : DFConfig -> DFState.
Variable processTimeDomain : DFState -> list Q -> Q * DFState.
Variable calculateBeatPeriod : Z -> Z -> list Q -> nat -> Q -> bool -> list Z.
Variable calculateBeats : Z -> Z -> list Q -> list Z -> Q -> Q -> list Q.
Variable DownBeat_getBufferedAudio : Z -> nat -> Z -> Z -> list (list Q) -> list Q.
Variable DownBeat_findDownBeats :
  Z -> nat -> Z -> Z -> list (list Q) -> list Q -> list Q -> list Z * list Q.
Variable Segmenter_getWindowsize : SegPrim.ClusterMeltSegmenterParams -> Z -> Z.
Variable Segmenter_getHopsize : SegPrim.ClusterMeltSegmenterParams -> Z -> Z.
Variable Segmenter_segment :
  SegPrim.ClusterMeltSegmenterParams -> Z -> list (list Q) -> Z -> SegPrim.Segmentation.
Variable sort_cues : list CuePoint -> list CuePoint.

Local Abbreviation ps := (process_sample DFState processTimeDomain).
Local Abbreviation process := (analyzer_process DFState processTimeDomain).
Local Abbreviation chunks := (process_chunks DFState processTimeDomain).
Local Abbreviation finalize :=
  (analyzer_finalize DFState calculateBeatPeriod calculateBeats DownBeat_getBufferedAudio
     DownBeat_findDownBeats Segmenter_getWindowsize Segmenter_getHopsize Segmenter_segment
     sort_cues).
Local Abbreviation file_ex :=
  (analyzer_analyze_file_ex DFState DetectionFunction_new processTimeDomain calculateBeatPeriod
     calculateBeats DownBeat_getBufferedAudio DownBeat_findDownBeats Segmenter_getWindowsize
     Segmenter_getHopsize Segmenter_segment sort_cues).

Lemma process_nonzero : forall a xs n, (n <> 0)%nat ->
  process a xs n = (0, snd (process a xs n)).
Proof.
  intros a xs n Hn. unfold analyzer_process.
  replace (n =? 0)%nat with false by (symmetry; apply Nat.eqb_neq; exact Hn). reflexivity.
Qed.

Lemma process_chunks_some : forall fuel f pos a, exists a', chunks fuel f pos a = Some a'.
Proof.
  induction fuel as [|fuel IH]; intros f pos a; [eexists; reflexivity|].
  cbn [process_chunks]. destruct (sf_readf_float f pos) as [k buf].
  destruct (k =? 0)%nat eqn:Ek; [eexists; reflexivity|].
  rewrite process_nonzero by (apply Nat.eqb_neq; exact Ek). apply IH.
Qed.

Lemma process_chunks_whole : forall f fuel pos a,
  let F := Z.to_nat (SF.frames (SF.sfinfo f)) in
  let c := Z.to_nat (SF.channels (SF.sfinfo f)) in
  c = (if (channels DFState a =? 1)%Z then 1 else 2)%nat ->
  length (SF.data f) = (F * c)%nat ->
  (pos <= F)%nat -> (F - pos < fuel)%nat ->
  chunks fuel f pos a = Some (snd (process a (skipn (pos * c) (SF.data f)) (F - pos))).
Proof.
  intros f fuel; induction fuel as [|fuel IH]; intros pos a F c Hc Hlen Hpos Hfuel; [lia|].
  cbn [process_chunks]. unfold sf_readf_float. fold F c.
  set (k := Nat.min chunkSize (F - pos)).
  destruct (k =? 0)%nat eqn:Ek.
  - apply Nat.eqb_eq in Ek. unfold k, chunkSize in Ek.
    replace (F - pos)%nat with O by lia. reflexivity.
  - apply Nat.eqb_neq in Ek.
    rewrite process_nonzero by exact Ek. cbv beta iota. cbn [negb Z.eqb].
    destruct (process_fields DFState processTimeDomain a
                (firstn (k * c) (skipn (pos * c) (SF.data f))) k) as [_ [Hch _]].
    assert (Hk : (k <= F - pos)%nat) by (unfold k; lia).
    rewrite IH; [| rewrite Hch; exact Hc | exact Hlen | lia | lia].
    change (Z.to_nat (SF.frames (SF.sfinfo f))) with F.
    change (Z.to_nat (SF.channels (SF.sfinfo f))) with c.
    rewrite process_compose by (rewrite length_firstn, length_skipn, <- Hc; nia).
    replace (k + (F - (pos + k)))%nat with (F - pos)%nat by lia.
    replace ((pos + k) * c)%nat with (k * c + pos * c)%nat by lia.
    rewrite <- skipn_skipn, firstn_skipn. reflexivity.
Qed.

(** A created analyzer has the file's channel count, 1 or 2. *)
Lemma create_channels : forall sr ch cfg a,
  analyzer_create DFState DetectionFunction_new sr ch cfg = Some a ->
  channels DFState a = ch /\ 0 < sr /\ (ch = 1 \/ ch = 2) /\
  a = QMAnalyzer_new DFState DetectionFunction_new sr ch (getEffectiveConfig cfg).
Proof.
  intros sr ch cfg a H. unfold analyzer_create, create_guard in H.
  destruct ((sr <=? 0) || (ch <=? 0) || (2 <? ch)) eqn:E; [discriminate|].
  injection H as <-. rewrite !orb_false_iff in E. destruct E as [[E1 E2] E3].
  apply Z.leb_gt in E1. apply Z.leb_gt in E2. apply Z.ltb_ge in E3.
  split; [reflexivity|]. split; [exact E1|]. split; [lia | reflexivity].
Qed.

(** X8: reading the file in chunks of 4096 frames changes nothing: once the
    analyzer is created and the file holds [frames * channels] samples,
    [analyzer_analyze_file_ex] gives the result of [analyzer_finalize] after
    one [analyzer_process] call over the whole file, with the sample rate,
    frame count and duration taken from the file header. *)
Theorem analyze_file_ex_whole_stream : forall f cfg seg a,
  analyzer_create DFState DetectionFunction_new (SF.samplerate (SF.sfinfo f))
    (SF.channels (SF.sfinfo f)) (Some (getEffectiveConfig cfg)) = Some a ->
  length (SF.data f) =
    (Z.to_nat (SF.frames (SF.sfinfo f)) * Z.to_nat (SF.channels (SF.sfinfo f)))%nat ->
  file_ex (inl f) cfg seg =
  withFileInfo
    (finalize (snd (process a (SF.data f) (Z.to_nat (SF.frames (SF.sfinfo f))))) seg)
    (SF.sfinfo f).
Proof.
  intros f cfg seg a Hc Hlen.
  destruct (create_channels _ _ _ _ Hc) as [Hch [_ [H12 _]]].
  unfold analyzer_analyze_file_ex. cbv zeta. rewrite Hc.
  rewrite process_chunks_whole.
  - rewrite Nat.mul_0_l, Nat.sub_0_r. reflexivity.
  - rewrite Hch. destruct H12 as [-> | ->]; reflexivity.
  - exact Hlen.
  - lia.
  - lia.
Qed.

(** X9: the error paths of [analyzer_analyze_file_ex]: an open failure
    reports [sf_strerror]'s text with everything else zero; an opened file
    gets "Failed to create analyzer" exactly when its sample rate is not
    positive or its channel count is outside [1, 2] (multichannel files are
    refused), and then the sample rate, frame count and duration are 0;
    "Error processing audio" never occurs; otherwise the file's header
    values are reported. *)
Theorem analyze_file_ex_errors : forall file cfg seg,
  let r := analyzer_analyze_file_ex DFState DetectionFunction_new processTimeDomain
             calculateBeatPeriod calculateBeats DownBeat_getBufferedAudio DownBeat_findDownBeats
             Segmenter_getWindowsize Segmenter_getHopsize Segmenter_segment sort_cues
             file cfg seg in
  (forall msg, file = inr msg ->
     error r = Some msg /\ sample_rate r = 0 /\ total_frames r = 0 /\ beats r = []) /\
  (forall f, file = inl f ->
     let info := SF.sfinfo f in
     (error r = Some "Failed to create analyzer"%string <->
      SF.samplerate info <= 0 \/ SF.channels info <= 0 \/ 2 < SF.channels info) /\
     error r <> Some "Error processing audio"%string /\
     (SF.samplerate info <= 0 \/ SF.channels info <= 0 \/ 2 < SF.channels info ->
        sample_rate r = 0 /\ total_frames r = 0 /\ duration r = 0%Q) /\
     (0 < SF.samplerate info /\ 0 < SF.channels info <= 2 ->
        sample_rate r = SF.samplerate info /\ total_frames r = SF.frames info /\
        duration r = (inject_Z (SF.frames info) / inject_Z (SF.samplerate info))%Q)).
Proof.
  intros file cfg seg r. subst r. split.
  - intros msg ->. repeat split.
  - intros f -> info. subst info. unfold analyzer_analyze_file_ex. cbv zeta.
    destruct (analyzer_create DFState DetectionFunction_new (SF.samplerate (SF.sfinfo f))
                (SF.channels (SF.sfinfo f)) (Some (getEffectiveConfig cfg))) as [a|] eqn:Hc.
    + destruct (create_channels _ _ _ _ Hc) as [_ [Hsr [H12 _]]].
      destruct (process_chunks_some (S (Z.to_nat (SF.frames (SF.sfinfo f)))) f 0 a)
        as [a' Ha']. rewrite Ha'.
      destruct (finalize_error_cases DFState calculateBeatPeriod calculateBeats
                  DownBeat_getBufferedAudio DownBeat_findDownBeats Segmenter_getWindowsize
                  Segmenter_getHopsize Segmenter_segment sort_cues a' seg)
        as [He | [He | [He | He]]];
        cbn [withFileInfo error sample_rate total_frames duration]; rewrite He;
        (split; [split; [discriminate | lia] |]);
        (split; [discriminate|]);
        (split; [lia | intros; repeat split]).
    + apply analyzer_create_null_iff in Hc.
      repeat split; try discriminate; try lia; auto.
Qed.

End FileProps.


(** ** The whole-file API against the legacy analyzer *)

Section LegacyFileProps.

Variable DFState : Type.
Variable DetectionFunction_new : DFConfig -> DFState.
Variable processTimeDomain : DFState -> list Q -> Q * DFState.
Variable calculateBeatPeriod : Z -> Z -> list Q -> nat -> Q -> bool -> list Z.
Variable calculateBeats : Z -> Z -> list Q -> list Z -> Q -> Q -> list Q.
Variable DownBeat_getBufferedAudio : Z -> nat -> Z -> Z -> list (list Q) -> list Q.
Variable DownBeat_findDownBeats :
  Z -> nat -> Z -> Z -> list (list Q) -> list Q -> list Q -> list Z * list Q.
Variable Segmenter_getWindowsize : SegPrim.ClusterMeltSegmenterParams -> Z -> Z.
Variable Segmenter_getHopsize : SegPrim.ClusterMeltSegmenterParams -> Z -> Z.
Variable Segmenter_segment :
  SegPrim.ClusterMeltSegmenterParams -> Z -> list (list Q) -> Z -> SegPrim.Segmentation.
Variable sort_cues : list CuePoint -> list CuePoint.

Local Abbreviation ps := (process_sample DFState processTimeDomain).
Local Abbreviation process := (analyzer_process DFState processTimeDomain).
Local Abbreviation chunks := (process_chunks DFState processTimeDomain).
Local Abbreviation dfrun := (df_run DFState processTimeDomain).
Local Abbreviation push := (LegacyFile.push_sample DFState processTimeDomain).
Local Abbreviation stateOf := (loopStateOf DFState).
Local Abbreviation finalize :=
  (analyzer_finalize DFState calculateBeatPeriod calculateBeats DownBeat_getBufferedAudio
     DownBeat_findDownBeats Segmenter_getWindowsize Segmenter_getHopsize Segmenter_segment
     sort_cues).

(** The legacy sample loop, like the streaming one, feeds the overlap
    buffer and calls [processTimeDomain] on each emitted window. *)
Lemma fold_push_run : forall W s xs st,
  fold_left (push W s) xs st =
  let r := acc_run W s (LegacyFile.overlap DFState st) xs in
  let d := dfrun (LegacyFile.detectionFunction DFState st) (snd r) in
  LegacyFile.mkLoopState DFState (fst r) (snd d) (LegacyFile.detectionResults DFState st ++ fst d).
Proof.
  intros W s xs; induction xs as [|x t IH]; intros st.
  - destruct st; simpl. rewrite app_nil_r. reflexivity.
  - cbn [fold_left]. rewrite IH. unfold LegacyFile.push_sample. cbn [acc_run].
    destruct (acc_push W s (LegacyFile.overlap DFState st) x) as [a1 [w|]].
    + destruct (processTimeDomain (LegacyFile.detectionFunction DFState st) w) as [v st1] eqn:Ep.
      simpl. destruct (acc_run W s a1 t) as [a2 ws]. simpl. rewrite Ep.
      destruct (dfrun st1 ws) as [vs st2]. simpl. rewrite <- app_assoc. reflexivity.
    + simpl. destruct (acc_run W s a1 t) as [a2 ws]. reflexivity.
Qed.

Lemma process_loopState : forall a buf k,
  (channels DFState a = 1 \/ channels DFState a = 2) ->
  stateOf (snd (process a buf k)) =
  if (k =? 0)%nat then stateOf a
  else fold_left (push (Z.to_nat (windowSize DFState a)) (Z.to_nat (stepSizeFrames DFState a)))
         (LegacyFile.toMono (channels DFState a) buf k) (stateOf a).
Proof.
  intros a buf k H12. rewrite process_state. destruct (k =? 0)%nat; [reflexivity|].
  cbv zeta. unfold with_audio at 1. rewrite fold_process_run, fold_push_run.
  unfold LegacyFile.toMono. destruct H12 as [-> | ->]; reflexivity.
Qed.

Lemma chunks_vs_read_loop : forall f fuel pos a,
  channels DFState a = SF.channels (SF.sfinfo f) ->
  (channels DFState a = 1 \/ channels DFState a = 2) ->
  exists a',
    chunks fuel f pos a = Some a' /\
    stateOf a' =
      LegacyFile.read_loop DFState processTimeDomain fuel f (Z.to_nat (windowSize DFState a))
        (Z.to_nat (stepSizeFrames DFState a)) pos (stateOf a) /\
    sampleRate DFState a' = sampleRate DFState a /\ config DFState a' = config DFState a /\
    stepSizeFrames DFState a' = stepSizeFrames DFState a.
Proof.
  intros f fuel; induction fuel as [|fuel IH]; intros pos a Hch H12.
  - exists a. repeat split.
  - cbn [process_chunks LegacyFile.read_loop]. destruct (sf_readf_float f pos) as [k buf].
    destruct (k =? 0)%nat eqn:Ek; [exists a; repeat split|].
    rewrite process_nonzero by (apply Nat.eqb_neq; exact Ek). cbv beta iota. cbn [negb Z.eqb].
    destruct (process_fields DFState processTimeDomain a buf k)
      as [Hsr [Hch' [Hcfg [Hst Hw]]]].
    destruct (IH (pos + k)%nat (snd (process a buf k))) as [a' [Ha' [Hl [Hsr' [Hcfg' Hst']]]]].
    { rewrite Hch'. exact Hch. }
    { rewrite Hch'. exact H12. }
    exists a'. split; [exact Ha'|].
    rewrite Hl, Hw, Hst, process_loopState, Ek, <- Hch by exact H12.
    split; [reflexivity|]. rewrite Hsr', Hcfg', Hst'. repeat split; assumption.
Qed.

Lemma finalize_legacy_agree : forall a seg frames,
  config DFState a = analyzer_default_config ->
  stepSizeFrames DFState a = Legacy.stepSizeFramesOf (sampleRate DFState a) ->
  let r := finalize a seg in
  let l := Legacy.analyze_from_df calculateBeatPeriod calculateBeats (sampleRate DFState a)
             frames (detectionResults DFState a) in
  error r = Legacy.error l /\ beats r = Legacy.beats l /\ bpm r = Legacy.bpm l.
Proof.
  intros a seg frames Hcfg Hstep r l. subst r l.
  unfold analyzer_finalize, Legacy.analyze_from_df.
  rewrite Hcfg, Hstep.
  destruct (length (detectionResults DFState a) <? 4)%nat; [repeat split|].
  destruct (nonZeroCount (detectionResults DFState a) <=? 2)%nat; [repeat split|].
  cbv zeta.
  change (effInputTempo analyzer_default_config) with Legacy.defaultInputTempo.
  change (negb (constrain_tempo analyzer_default_config =? 0)) with Legacy.defaultConstrainTempo.
  change (effAlpha analyzer_default_config) with Legacy.defaultAlpha.
  change (effTightness analyzer_default_config) with Legacy.defaultTightness.
  destruct (calculateBeats _ _ _ _ Legacy.defaultAlpha Legacy.defaultTightness) as [|b bs];
    [repeat split|].
  destruct (downbeatStage _ _ _ _ _). destruct (segmentationStage _ _ _ _ _ _).
  repeat split.
Qed.

Lemma analyze_from_df_info : forall sr frames dr,
  let l := Legacy.analyze_from_df calculateBeatPeriod calculateBeats sr frames dr in
  Legacy.sample_rate l = sr /\ Legacy.total_frames l = frames /\
  Legacy.duration l = (inject_Z frames / inject_Z sr)%Q.
Proof.
  intros sr frames dr l. subst l. unfold Legacy.analyze_from_df.
  destruct (length dr <? 4)%nat; [repeat split|].
  destruct (nonZeroCount dr <=? 2)%nat; [repeat split|].
  cbv zeta. destruct (calculateBeats _ _ _ _ _ _); repeat split.
Qed.

(** X10: for an opened mono or stereo file with a positive sample rate, the
    new [analyzer_analyze_file] returns the same basic result (BPM, beats,
    sample rate, frame count, duration, error) as the legacy
    [analyzer_analyze_file] of src/analyzer/lib/analyzer.cpp. *)
Theorem analyze_file_matches_legacy_file : forall f,
  0 < SF.samplerate (SF.sfinfo f) ->
  SF.channels (SF.sfinfo f) = 1 \/ SF.channels (SF.sfinfo f) = 2 ->
  analyzer_analyze_file DFState DetectionFunction_new processTimeDomain calculateBeatPeriod
    calculateBeats DownBeat_getBufferedAudio DownBeat_findDownBeats Segmenter_getWindowsize
    Segmenter_getHopsize Segmenter_segment sort_cues (inl f) =
  LegacyFile.analyzer_analyze_file DFState DetectionFunction_new processTimeDomain
    calculateBeatPeriod calculateBeats (inl f).
Proof.
  intros f Hsr H12.
  set (sr := SF.samplerate (SF.sfinfo f)) in *.
  set (ch := SF.channels (SF.sfinfo f)) in *.
  set (a0 := QMAnalyzer_new DFState DetectionFunction_new sr ch analyzer_default_config).
  assert (Hc : analyzer_create DFState DetectionFunction_new sr ch
                 (Some (getEffectiveConfig None)) = Some a0).
  { unfold analyzer_create, create_guard.
    replace ((sr <=? 0) || (ch <=? 0) || (2 <? ch)) with false
      by (symmetry; rewrite !orb_false_iff, Z.leb_gt, Z.leb_gt, Z.ltb_ge; lia).
    reflexivity. }
  destruct (chunks_vs_read_loop f (S (Z.to_nat (SF.frames (SF.sfinfo f)))) 0 a0)
    as [a' [Ha' [Hl [Hsr' [Hcfg' Hst']]]]]; [reflexivity | exact H12 |].
  unfold analyzer_analyze_file, analyzer_analyze_file_config, analyzer_analyze_file_ex,
    LegacyFile.analyzer_analyze_file.
  cbv zeta. fold sr ch. rewrite Hc, Ha'.
  change (LegacyFile.mkLoopState DFState
            (acc_init (Z.to_nat (nextPowerOfTwo (Z.quot sr Legacy.kMaximumBinSizeHz))))
            (DetectionFunction_new
               (LegacyFile.makeDetectionFunctionConfig (Legacy.stepSizeFramesOf sr)
                  (nextPowerOfTwo (Z.quot sr Legacy.kMaximumBinSizeHz)))) [])
    with (stateOf a0).
  change (Z.to_nat (nextPowerOfTwo (Z.quot sr Legacy.kMaximumBinSizeHz)))
    with (Z.to_nat (windowSize DFState a0)).
  change (Z.to_nat (Legacy.stepSizeFramesOf sr)) with (Z.to_nat (stepSizeFrames DFState a0)).
  rewrite <- Hl. change (LegacyFile.detectionResults DFState (stateOf a'))
    with (detectionResults DFState a').
  assert (Hsa : sampleRate DFState a' = sr) by (rewrite Hsr'; reflexivity).
  destruct (finalize_legacy_agree a' None (SF.frames (SF.sfinfo f))) as [He [Hb Hbpm]].
  { rewrite Hcfg'. reflexivity. }
  { rewrite Hst', Hsa. reflexivity. }
  rewrite Hsa in He, Hb, Hbpm.
  destruct (analyze_from_df_info sr (SF.frames (SF.sfinfo f)) (detectionResults DFState a'))
    as [Hs1 [Hs2 Hs3]].
  destruct (Legacy.analyze_from_df calculateBeatPeriod calculateBeats sr (SF.frames (SF.sfinfo f))
              (detectionResults DFState a')) as [lb lbs lsr ltf ld le].
  cbn in He, Hb, Hbpm, Hs1, Hs2, Hs3.
  unfold toSimpleResult, withFileInfo. cbn [bpm beats sample_rate total_frames duration error].
  rewrite He, Hb, Hbpm, Hs1, Hs2, Hs3. reflexivity.
Qed.

End LegacyFileProps.

(* ======================================================================== *)
(** * Concrete runs *)

(** Helpers for the merge sort: ordered pairs of a strongly sorted list. *)
Lemma StronglySorted_nth : forall (A : Type) (R : A -> A -> Prop) (l : list A) d i j,
  StronglySorted R l -> (i < j < length l)%nat -> R (nth i l d) (nth j l d).
Proof.
  intros A R l d. induction l as [|x t IH]; intros i j H Hij; simpl in Hij; [lia|].
  inversion H as [|? ? Ht Hall]; subst.
  destruct i as [|i], j as [|j]; try lia; simpl.
  - rewrite Forall_forall in Hall. apply Hall, nth_In. lia.
  - apply IH; [exact Ht | lia].
Qed.

Lemma CueSort_contract : forall l, std_sort_contract l (CueSort.sort l).
Proof.
  intros l. split; [apply CueSort.Permuted_sort|].
  intros i j Hij.
  assert (Htr : Transitive (fun a b => is_true (CueOrder.leb a b))).
  { intros a b c Hab Hbc. unfold is_true, CueOrder.leb in *.
    apply Qle_bool_iff in Hab, Hbc. apply Qle_bool_iff. eapply Qle_trans; eassumption. }
  pose proof (StronglySorted_nth _ _ _ cue0 i j (CueSort.StronglySorted_sort l Htr) Hij) as H.
  unfold is_true, CueOrder.leb in H. unfold cue_less. rewrite H. reflexivity.
Qed.

(** C1: a run where [libstdc++]'s [std::sort] puts a section cue before a
    phrase cue with the same time, although the phrase cue comes first in
    the unsorted vector. *)
Lemma cue_ties_counterexample :
  let r := CX.finalize (CX.fed 10752) (Some segmenter_default_config) in
  error r = None /\
  std_sort_contract (unsortedCues (beats r) (downbeats r) (segments r)) (cue_points r) /\
  ~ phrase_first_on_ties (cue_points r).
Proof.
  cbv zeta. split; [vm_compute; reflexivity|]. split; [split|].
  - apply permb_sound. vm_compute. reflexivity.
  - apply sorted_pairs_b_sound. vm_compute. reflexivity.
  - apply section_before_tied_phrase_b_sound. vm_compute. reflexivity.
Qed.

Lemma finalize_cues_sorted_witness :
  (forall l, std_sort_contract l (CueSort.sort l)) /\
  (forall i j,
     (i < j < length (cue_points
        (analyzer_finalize CX.DFState CX.calculateBeatPeriod CX.calculateBeats
           CX.getBufferedAudio CX.findDownBeats CX.getWindowsize CX.getHopsize CX.segment
           CueSort.sort (CX.fed 10752) (Some segmenter_default_config))))%nat ->
     (time (nth i (cue_points
        (analyzer_finalize CX.DFState CX.calculateBeatPeriod CX.calculateBeats
           CX.getBufferedAudio CX.findDownBeats CX.getWindowsize CX.getHopsize CX.segment
           CueSort.sort (CX.fed 10752) (Some segmenter_default_config))) cue0)
      <= time (nth j (cue_points
        (analyzer_finalize CX.DFState CX.calculateBeatPeriod CX.calculateBeats
           CX.getBufferedAudio CX.findDownBeats CX.getWindowsize CX.getHopsize CX.segment
           CueSort.sort (CX.fed 10752) (Some segmenter_default_config))) cue0))%Q).
Proof.
  split; [exact CueSort_contract|].
  exact (proj1 (finalize_cues_sorted CX.DFState CX.calculateBeatPeriod CX.calculateBeats
                  CX.getBufferedAudio CX.findDownBeats CX.getWindowsize CX.getHopsize
                  CX.segment CueSort.sort CueSort_contract (CX.fed 10752)
                  (Some segmenter_default_config))).
Defined.

Lemma ctor_sizes_witness :
  0 < 57795 /\ Z.quot 57795 (effMaxBinHz analyzer_default_config) <= 2 ^ 30 /\
  57795 < 2 ^ 24 /\
  (inject_Z 57795 * effStepSecs analyzer_default_config < inject_Z (2 ^ 24))%Q /\
  (exists k, 0 <= k /\ ctorWindowSize 57795 analyzer_default_config = 2 ^ k) /\
  Qfloor (inject_Z 57795 * effStepSecs analyzer_default_config)
    <= ctorStepSizeFrames 57795 analyzer_default_config
    <= Qceiling (inject_Z 57795 * effStepSecs analyzer_default_config).
Proof.
  assert (H1 : 0 < 57795) by lia.
  assert (H2 : Z.quot 57795 (effMaxBinHz analyzer_default_config) <= 2 ^ 30)
    by (vm_compute; discriminate).
  assert (H3 : 57795 < 2 ^ 24) by (vm_compute; reflexivity).
  assert (H4 : (inject_Z 57795 * effStepSecs analyzer_default_config < inject_Z (2 ^ 24))%Q)
    by (vm_compute; reflexivity).
  destruct (ctor_sizes 57795 analyzer_default_config H1 H2) as [Hw Hs].
  split; [exact H1|]. split; [exact H2|]. split; [exact H3|]. split; [exact H4|].
  split; [exact Hw|].
  exact (proj2 (proj2 (Hs H3 H4))).
Defined.

(** C3: four positive DF values leave two after the trim; the tracker runs
    on them and the result carries beats and no error. *)
Lemma trimming_counterexample :
  let a := CX.fed 2560 in
  let r := CX.finalize a None in
  length (detectionResults CX.DFState a) = 4%nat /\
  length (trimmedDF (detectionResults CX.DFState a) (nonZeroCount (detectionResults CX.DFState a)))
    = 2%nat /\
  error r = None /\ length (beats r) = 2%nat.
Proof.
  cbv zeta. vm_compute. repeat split.
Qed.

Lemma finalize_trimming_witness :
  (4 <= length (detectionResults CX.DFState (CX.fed 2560)))%nat /\
  ((2 < nonZeroCount (detectionResults CX.DFState (CX.fed 2560)))%nat ->
   (1 <= length (trimmedDF (detectionResults CX.DFState (CX.fed 2560))
                   (nonZeroCount (detectionResults CX.DFState (CX.fed 2560)))))%nat).
Proof.
  assert (H : (4 <= length (detectionResults CX.DFState (CX.fed 2560)))%nat)
    by (vm_compute; repeat constructor).
  split; [exact H|].
  intros Hnz.
  exact (proj1 (proj2 (proj2 (proj2 (proj2
    (finalize_trimming CX.DFState CX.calculateBeatPeriod CX.calculateBeats
       CX.getBufferedAudio CX.findDownBeats CX.getWindowsize CX.getHopsize CX.segment CX.sort
       (CX.fed 2560) None H)))) Hnz)).
Defined.

Lemma finalize_not_enough_data_witness :
  (length (detectionResults CX.DFState CX.created) < 4)%nat /\
  error (CX.finalize CX.created None) = Some "Not enough audio data for beat detection"%string.
Proof.
  assert (H : (length (detectionResults CX.DFState CX.created) < 4)%nat)
    by (vm_compute; repeat constructor).
  split; [exact H|].
  exact (proj1 (finalize_not_enough_data CX.DFState CX.calculateBeatPeriod CX.calculateBeats
                  CX.getBufferedAudio CX.findDownBeats CX.getWindowsize CX.getHopsize
                  CX.segment CX.sort CX.created None H)).
Defined.

Lemma finalize_downbeat_skipped_witness :
  (length (beats (CX.finalize (CX.fed 2560) None)) < 4)%nat /\
  downbeats (CX.finalize (CX.fed 2560) None) = [].
Proof.
  assert (H : (length (beats (CX.finalize (CX.fed 2560) None)) < 4)%nat)
    by (vm_compute; repeat constructor).
  split; [exact H|].
  exact (proj1 (finalize_downbeat_skipped CX.DFState CX.calculateBeatPeriod CX.calculateBeats
                  CX.getBufferedAudio CX.findDownBeats CX.getWindowsize CX.getHopsize
                  CX.segment CX.sort (CX.fed 2560) None (or_introl H))).
Defined.

Lemma segmentation_gets_zero_clusters_witness :
  audioBuffer CX.DFState (CX.fed 2560) <> [] /\
  SegPrim.nclusters (segmenterParams (getEffectiveSegConfig (Some (segCfgWithClusters 0))))
    = kDefaultSegNumClusters.
Proof.
  assert (H : audioBuffer CX.DFState (CX.fed 2560) <> []) by (vm_compute; discriminate).
  split; [exact H|].
  exact (proj1 (segmentation_gets_zero_clusters CX.DFState CX.getWindowsize CX.getHopsize
                  CX.segment (CX.fed 2560) H)).
Defined.

Lemma overlap_lossless_witness :
  (0 < 2 < 4)%nat /\
  reconstruct 4 2 (snd (acc_run 4 2 (acc_init 4) [1; 2; 3; 4; 5; 6; 7; 8; 9]%Q)) =
  firstn (4 + (length (snd (acc_run 4 2 (acc_init 4) [1; 2; 3; 4; 5; 6; 7; 8; 9]%Q)) - 1) * 2)
    [1; 2; 3; 4; 5; 6; 7; 8; 9]%Q.
Proof.
  split; [lia|].
  exact (proj2 (proj2 (proj2 (overlap_lossless 4 2 ltac:(lia) [1; 2; 3; 4; 5; 6; 7; 8; 9]%Q))
                  ltac:(vm_compute; discriminate))).
Defined.

Lemma finalize_matches_legacy_witness :
  config CX.DFState (CX.fed 2560) = analyzer_default_config /\
  stepSizeFrames CX.DFState (CX.fed 2560)
    = Legacy.stepSizeFramesOf (sampleRate CX.DFState (CX.fed 2560)) /\
  bpm (CX.finalize (CX.fed 2560) None) =
    Legacy.bpm (Legacy.analyze_from_df CX.calculateBeatPeriod CX.calculateBeats
                  (sampleRate CX.DFState (CX.fed 2560)) 2560
                  (detectionResults CX.DFState (CX.fed 2560))).
Proof.
  assert (H1 : config CX.DFState (CX.fed 2560) = analyzer_default_config)
    by (vm_compute; reflexivity).
  assert (H2 : stepSizeFrames CX.DFState (CX.fed 2560)
               = Legacy.stepSizeFramesOf (sampleRate CX.DFState (CX.fed 2560)))
    by (vm_compute; reflexivity).
  split; [exact H1|]. split; [exact H2|].
  exact (proj2 (proj2 (finalize_matches_legacy CX.DFState CX.calculateBeatPeriod
                         CX.calculateBeats CX.getBufferedAudio CX.findDownBeats
                         CX.getWindowsize CX.getHopsize CX.segment CX.sort
                         (CX.fed 2560) None 2560 H1 H2))).
Defined.

(** Runs of the further properties on the concrete instance. *)
Lemma analyzer_process_compose_witness :
  length [1; 2]%Q = ((if (channels CX.DFState CX.created =? 1)%Z then 1 else 2) * 2)%nat /\
  snd (analyzer_process CX.DFState CX.processTimeDomain
         (snd (analyzer_process CX.DFState CX.processTimeDomain CX.created [1; 2]%Q 2))
         [3]%Q 1) =
  snd (analyzer_process CX.DFState CX.processTimeDomain CX.created ([1; 2] ++ [3])%Q (2 + 1)).
Proof.
  assert (H : length [1; 2]%Q = ((if (channels CX.DFState CX.created =? 1)%Z then 1 else 2) * 2)%nat)
    by (vm_compute; reflexivity).
  split; [exact H|].
  exact (analyzer_process_compose CX.DFState CX.processTimeDomain CX.created [1; 2]%Q [3]%Q
           2 1 H).
Defined.

Lemma analyzer_process_df_windows_witness :
  analyzer_create CX.DFState CX.DetectionFunction_new 44100 1 None = Some CX.created /\
  (0 < stepSizeFrames CX.DFState CX.created < windowSize CX.DFState CX.created) /\
  analyzer_get_df_count CX.DFState
    (Some (snd (analyzer_process CX.DFState CX.processTimeDomain CX.created
                  (repeat 0%Q 2560) 2560))) = 4%nat.
Proof.
  assert (H1 : analyzer_create CX.DFState CX.DetectionFunction_new 44100 1 None = Some CX.created)
    by (vm_compute; reflexivity).
  assert (H2 : 0 < stepSizeFrames CX.DFState CX.created < windowSize CX.DFState CX.created)
    by (vm_compute; split; reflexivity).
  split; [exact H1|]. split; [exact H2|].
  rewrite (proj1 (analyzer_process_df_windows CX.DFState CX.DetectionFunction_new
                    CX.processTimeDomain 44100 1 None CX.created (repeat 0%Q 2560) 2560 H1 H2)).
  vm_compute. reflexivity.
Defined.

Lemma strideFrames_frames_witness :
  (0 < 2)%nat /\
  strideFrames [1; 2; 3; 4; 5]%Q 3 2 (S (length [1; 2; 3; 4; 5]%Q)) 0 = [[1; 2; 3]; [3; 4; 5]]%Q.
Proof.
  split; [lia|].
  rewrite (proj1 (strideFrames_frames [1; 2; 3; 4; 5]%Q 3 2 ltac:(lia))).
  reflexivity.
Defined.

Lemma finalize_cue_sources_witness :
  (forall l, Permutation l (CueSort.sort l)) /\
  length (cue_points (analyzer_finalize CX.DFState CX.calculateBeatPeriod CX.calculateBeats
            CX.getBufferedAudio CX.findDownBeats CX.getWindowsize CX.getHopsize CX.segment
            CueSort.sort (CX.fed 2560) None)) =
  length (phraseCues
     (beats (analyzer_finalize CX.DFState CX.calculateBeatPeriod CX.calculateBeats
            CX.getBufferedAudio CX.findDownBeats CX.getWindowsize CX.getHopsize CX.segment
            CueSort.sort (CX.fed 2560) None))
     (downbeats (analyzer_finalize CX.DFState CX.calculateBeatPeriod CX.calculateBeats
            CX.getBufferedAudio CX.findDownBeats CX.getWindowsize CX.getHopsize CX.segment
            CueSort.sort (CX.fed 2560) None))).
Proof.
  split; [exact CueSort.Permuted_sort|].
  destruct (finalize_cue_sources CX.DFState CX.calculateBeatPeriod CX.calculateBeats
              CX.getBufferedAudio CX.findDownBeats CX.getWindowsize CX.getHopsize CX.segment
              CueSort.sort CueSort.Permuted_sort (CX.fed 2560) None)
    as [_ [Hlen [_ Hnone]]].
  rewrite Hlen, (Hnone eq_refl). exact (Nat.add_0_r _).
Defined.

Lemma cx_calculateBeats_sorted : forall st n,
  Sorted Qlt (map (fun i => inject_Z (Z.of_nat i)) (seq st n)).
Proof.
  intros st n. revert st. induction n as [|n IH]; intros st; simpl.
  - constructor.
  - constructor; [apply IH|].
    destruct n as [|n]; simpl; constructor.
    unfold Qlt. simpl. lia.
Qed.

Lemma finalize_beats_increasing_witness :
  (forall sr step df bp al ti, Sorted Qlt (CX.calculateBeats sr step df bp al ti)) /\
  0 < stepSizeFrames CX.DFState (CX.fed 2560) /\ 0 < sampleRate CX.DFState (CX.fed 2560) /\
  Sorted Qlt (beats (CX.finalize (CX.fed 2560) None)) /\
  (0 < bpm (CX.finalize (CX.fed 2560) None))%Q.
Proof.
  assert (H0 : forall sr step df bp al ti, Sorted Qlt (CX.calculateBeats sr step df bp al ti))
    by (intros; apply cx_calculateBeats_sorted).
  assert (H1 : 0 < stepSizeFrames CX.DFState (CX.fed 2560)) by (vm_compute; reflexivity).
  assert (H2 : 0 < sampleRate CX.DFState (CX.fed 2560)) by (vm_compute; reflexivity).
  destruct (finalize_beats_increasing CX.DFState CX.calculateBeatPeriod CX.calculateBeats
              CX.getBufferedAudio CX.findDownBeats CX.getWindowsize CX.getHopsize CX.segment
              CX.sort H0 (CX.fed 2560) None H1 H2) as [Hs Hb].
  split; [exact H0|]. split; [exact H1|]. split; [exact H2|]. split; [exact Hs|].
  apply Hb. vm_compute. repeat constructor.
Defined.

Lemma analyze_file_ex_whole_stream_witness :
  analyzer_create CX.DFState CX.DetectionFunction_new 44100 1
    (Some (getEffectiveConfig None)) = Some CX.created /\
  length (repeat 0%Q 5000) = (Z.to_nat 5000 * Z.to_nat 1)%nat /\
  analyzer_analyze_file_ex CX.DFState CX.DetectionFunction_new CX.processTimeDomain
    CX.calculateBeatPeriod CX.calculateBeats CX.getBufferedAudio CX.findDownBeats
    CX.getWindowsize CX.getHopsize CX.segment CX.sort
    (inl (SF.mkSndfile (SF.mkSFInfo 5000 44100 1) (repeat 0%Q 5000))) None None =
  withFileInfo
    (CX.finalize (snd (analyzer_process CX.DFState CX.processTimeDomain CX.created
                         (repeat 0%Q 5000) 5000)) None)
    (SF.mkSFInfo 5000 44100 1).
Proof.
  assert (H1 : analyzer_create CX.DFState CX.DetectionFunction_new 44100 1
                 (Some (getEffectiveConfig None)) = Some CX.created)
    by (vm_compute; reflexivity).
  assert (H2 : length (repeat 0%Q 5000) = (Z.to_nat 5000 * Z.to_nat 1)%nat)
    by (vm_compute; reflexivity).
  split; [exact H1|]. split; [exact H2|].
  exact (analyze_file_ex_whole_stream CX.DFState CX.DetectionFunction_new CX.processTimeDomain
           CX.calculateBeatPeriod CX.calculateBeats CX.getBufferedAudio CX.findDownBeats
           CX.getWindowsize CX.getHopsize CX.segment CX.sort
           (SF.mkSndfile (SF.mkSFInfo 5000 44100 1) (repeat 0%Q 5000)) None None CX.created
           H1 H2).
Defined.

Lemma analyze_file_matches_legacy_file_witness :
  0 < 44100 /\ (1 = 1 \/ 1 = 2) /\
  analyzer_analyze_file CX.DFState CX.DetectionFunction_new CX.processTimeDomain
    CX.calculateBeatPeriod CX.calculateBeats CX.getBufferedAudio CX.findDownBeats
    CX.getWindowsize CX.getHopsize CX.segment CX.sort
    (inl (SF.mkSndfile (SF.mkSFInfo 5000 44100 1) (repeat 0%Q 5000))) =
  LegacyFile.analyzer_analyze_file CX.DFState CX.DetectionFunction_new CX.processTimeDomain
    CX.calculateBeatPeriod CX.calculateBeats
    (inl (SF.mkSndfile (SF.mkSFInfo 5000 44100 1) (repeat 0%Q 5000))).
Proof.
  split; [reflexivity|]. split; [left; reflexivity|].
  exact (analyze_file_matches_legacy_file CX.DFState CX.DetectionFunction_new
           CX.processTimeDomain CX.calculateBeatPeriod CX.calculateBeats CX.getBufferedAudio
           CX.findDownBeats CX.getWindowsize CX.getHopsize CX.segment CX.sort
           (SF.mkSndfile (SF.mkSFInfo 5000 44100 1) (repeat 0%Q 5000))
           (eq_refl : 0 < 44100) (or_introl eq_refl)).
Defined.
